(** * pyart.util.circular_stats

    A shallow embedding of [pyart/util/circular_stats.py] and the proofs of
    its specification.

    Two idealisations of numpy's [float64] are used, one per family of
    functions:
    - [compute_directional_stats] only adds, divides, sorts and counts, so
      its field holds exact rationals ([Q], kept in lowest terms) and the
      whole function computes;
    - the angular functions go through [cos], [sin], [arctan2], [log] and
      [sqrt], so they are stated over the real numbers, extended with the
      IEEE special values ([+inf], [-inf], [nan]) where the source can
      produce them.

    The real numbers stand for float64 up to rounding.  Two things a
    rounding error of 1e-16 can change beyond the last digits are modelled
    as such: which of the two ends of the seam a mean on the seam comes out
    at (statements at the seam are made modulo the period), and on which
    side of 1 and of 0 the norm of [angular_std] falls (the norm carries an
    explicit rounding error). *)

From Stdlib Require Import ZArith QArith Reals Lra Lia Psatz Sorted.
From stdpp Require Import gmap strings list.

(** ** Exceptions and results *)

Inductive exn : Type :=
| AxisError    (* numpy.exceptions.AxisError: axis out of bounds *)
| IndexError   (* boolean index did not match the indexed array *)
| TypeError.   (* a name is not bound to an object of the expected kind *)

Inductive result (A : Type) : Type :=
| Ok (a : A)
| Raise (e : exn).
Arguments Ok {A} a.
Arguments Raise {A} e.

Definition rbind {A B} (r : result A) (k : A → result B) : result B :=
  match r with
  | Ok a => k a
  | Raise e => Raise e
  end.

#[global] Instance result_bind : MBind result := λ A B k r, rbind r k.
#[global] Instance result_ret : MRet result := @Ok.

(** ** Masked arrays

    An element of a [numpy.ma] array is a datum with its mask bit
    ([cmask = true]: the element is masked, that is invalid). *)

Record cell : Type := Cell { cdata : Q; cmask : bool }.

(** A one-dimensional masked array. *)
Abbreviation marray := (list cell) (only parsing).

(** A two-dimensional masked array, as the list of its rows.  The rows of a
    numpy array have one length, and the fields of the examples have at
    least one row and one column. *)
Abbreviation field := (list (list cell)) (only parsing).

(** The number of columns of a matrix given by its rows. *)
Definition ncols {A} (m : list (list A)) : nat := length (hd [] m).

(** Column [j] of a matrix, and the list of all its columns. *)
Definition col {A} (d : A) (m : list (list A)) (j : nat) : list A :=
  map (fun r => nth j r d) m.

Definition cols {A} (d : A) (m : list (list A)) : list (list A) :=
  map (col d m) (seq 0 (ncols m)).

(** The filler found under the mask of an element no datum contributed to. *)
Definition masked_cell : cell := Cell 0 true.

(** [numpy.core.multiarray.normalize_axis_index] for a 2-D array. *)
Definition normalize_axis (axis : Z) : result nat :=
  if (axis =? 0)%Z || (axis =? -2)%Z then Ok 0%nat
  else if (axis =? 1)%Z || (axis =? -1)%Z then Ok 1%nat
  else Raise AxisError.

(** The 1-D slices a reduction along [ax] folds: the columns for axis 0,
    the rows for axis 1. *)
Definition lanes {A} (d : A) (ax : nat) (m : list (list A)) : list (list A) :=
  match ax with
  | O => cols d m
  | S _ => m
  end.

(** The data of the unmasked elements of a slice. *)
Definition valid_data (l : list cell) : list Q :=
  map cdata (List.filter (fun c => negb (cmask c)) l).

Definition Qsum (l : list Q) : Q := fold_right Qplus 0%Q l.

(** The plain arithmetic mean of a list of numbers ([numpy.mean]). *)
Definition plain_mean (l : list Q) : Q :=
  Qred (Qsum l / inject_Z (Z.of_nat (length l))).

Fixpoint insert_sorted (x : Q) (l : list Q) : list Q :=
  match l with
  | [] => [x]
  | y :: l' => if Qle_bool x y then x :: l else y :: insert_sorted x l'
  end.

Definition sort (l : list Q) : list Q := fold_right insert_sorted [] l.

(** The plain median of a list of numbers ([numpy.median]): the middle
    element of the sorted list, or the mean of the two middle ones. *)
Definition plain_median (l : list Q) : Q :=
  let s := sort l in
  let h := (length s / 2)%nat in
  if Nat.odd (length s) then Qred (nth h s 0%Q)
  else Qred ((nth (h - 1) s 0%Q + nth h s 0%Q) / 2).

(** [numpy.ma.mean] and [numpy.ma.median] of one slice: the statistic of the
    unmasked data, masked when there is none. *)
Definition ma_reduce (stat : list Q → Q) (l : list cell) : cell :=
  match valid_data l with
  | [] => masked_cell
  | v => Cell (stat v) false
  end.

Definition np_ma_mean (f : field) (axis : Z) : result marray :=
  ax ← normalize_axis axis;
  Ok (map (ma_reduce plain_mean) (lanes masked_cell ax f)).

Definition np_ma_median (f : field) (axis : Z) : result marray :=
  ax ← normalize_axis axis;
  Ok (map (ma_reduce plain_median) (lanes masked_cell ax f)).

(** [numpy.ma.getmaskarray], [numpy.logical_not]. *)
Definition np_ma_getmaskarray (f : field) : list (list bool) :=
  map (map cmask) f.

Definition np_logical_not (m : list (list bool)) : list (list bool) :=
  map (map negb) m.

Definition count_true (l : list bool) : Z :=
  Z.of_nat (length (List.filter (fun b : bool => b) l)).

(** [numpy.sum(valid, axis=0, dtype=int)]: the count of [True] per column. *)
Definition np_sum_axis0 (valid : list (list bool)) : list Z :=
  map count_true (cols false valid).

(** The comparison [nvalid < nvalid_min], elementwise. *)
Definition np_less (nvalid : list Z) (nvalid_min : Z) : list bool :=
  map (fun n => (n <? nvalid_min)%Z) nvalid.

Definition set_mask (c : cell) : cell := Cell (cdata c) true.

(** [values[index] = numpy.ma.masked] for a boolean [index]: the mask bit is
    set where the index is [True], the datum underneath is kept.  numpy
    accepts an empty boolean index on any array and assigns nothing; an
    index that is not empty and has another length than [values] is
    refused. *)
Definition setitem_masked (values : marray) (index : list bool) : result marray :=
  match index with
  | [] => Ok values
  | _ :: _ =>
      if (length index =? length values)%nat
      then Ok (zip_with (fun c (b : bool) => if b then set_mask c else c)
                        values index)
      else Raise IndexError
  end.

(** The function of the source, lines 52 to 62. *)
Definition compute_directional_stats
    (f : field) (avg_type : string) (nvalid_min : Z) (axis : Z)
    : result (marray * list Z) :=
  values ← (if String.eqb avg_type "mean" then np_ma_mean f axis
            else np_ma_median f axis);
  let valid := np_logical_not (np_ma_getmaskarray f) in
  let nvalid := np_sum_axis0 valid in
  values ← setitem_masked values (np_less nvalid nvalid_min);
  Ok (values, nvalid).

(** ** The object store

    Python passes arrays by reference.  The store maps the address of every
    live array to its contents; a numpy function that returns a new array
    allocates a fresh address, and only an item assignment writes to an
    address that exists. *)

Definition loc := nat.

Inductive obj : Type :=
| OMasked2 (f : field)            (* 2-D numpy.ma.MaskedArray *)
| OMasked1 (v : marray)           (* 1-D numpy.ma.MaskedArray *)
| OBool2 (m : list (list bool))   (* 2-D ndarray of bool *)
| OBool1 (m : list bool)          (* 1-D ndarray of bool *)
| OInt1 (n : list Z).             (* 1-D ndarray of int *)

(** A computation on the store; an exception keeps the store it was raised
    in. *)
Definition st (A : Type) : Type := gmap loc obj → result A * gmap loc obj.

#[global] Instance st_ret : MRet st := λ A a h, (Ok a, h).
#[global] Instance st_bind : MBind st := λ A B k m h,
  match m h with
  | (Ok a, h') => k a h'
  | (Raise e, h') => (Raise e, h')
  end.

Definition lift {A} (r : result A) : st A := λ h, (r, h).

Definition alloc (o : obj) : st loc := λ h,
  let l := fresh (dom h) in (Ok l, <[l := o]> h).

Definition load (l : loc) : st obj := λ h,
  match h !! l with
  | Some o => (Ok o, h)
  | None => (Raise TypeError, h)
  end.

Definition store (l : loc) (o : obj) : st unit := λ h, (Ok (), <[l := o]> h).

Definition load_field (l : loc) : st field :=
  o ← load l; match o with OMasked2 f => mret f | _ => lift (Raise TypeError) end.
Definition load_marray (l : loc) : st marray :=
  o ← load l; match o with OMasked1 v => mret v | _ => lift (Raise TypeError) end.
Definition load_bool2 (l : loc) : st (list (list bool)) :=
  o ← load l; match o with OBool2 m => mret m | _ => lift (Raise TypeError) end.
Definition load_bool1 (l : loc) : st (list bool) :=
  o ← load l; match o with OBool1 m => mret m | _ => lift (Raise TypeError) end.
Definition load_int1 (l : loc) : st (list Z) :=
  o ← load l; match o with OInt1 n => mret n | _ => lift (Raise TypeError) end.

(** The numpy calls of the source, each returning a new array. *)
Definition ma_mean_st (a : loc) (axis : Z) : st loc :=
  f ← load_field a; v ← lift (np_ma_mean f axis); alloc (OMasked1 v).

Definition ma_median_st (a : loc) (axis : Z) : st loc :=
  f ← load_field a; v ← lift (np_ma_median f axis); alloc (OMasked1 v).

Definition getmaskarray_st (a : loc) : st loc :=
  f ← load_field a; alloc (OBool2 (np_ma_getmaskarray f)).

Definition logical_not_st (a : loc) : st loc :=
  m ← load_bool2 a; alloc (OBool2 (np_logical_not m)).

Definition sum_axis0_st (a : loc) : st loc :=
  m ← load_bool2 a; alloc (OInt1 (np_sum_axis0 m)).

Definition less_st (a : loc) (k : Z) : st loc :=
  n ← load_int1 a; alloc (OBool1 (np_less n k)).

(** [a[index] = numpy.ma.masked]: the one write of the module, in place. *)
Definition setitem_masked_st (a index : loc) : st unit :=
  v ← load_marray a;
  i ← load_bool1 index;
  v' ← lift (setitem_masked v i);
  store a (OMasked1 v').

(** The function of the source on the store: it takes the address of the
    field and returns the addresses of [values] and [nvalid]. *)
Definition compute_directional_stats_st
    (field : loc) (avg_type : string) (nvalid_min : Z) (axis : Z)
    : st (loc * loc) :=
  values ← (if String.eqb avg_type "mean" then ma_mean_st field axis
            else ma_median_st field axis);
  mask ← getmaskarray_st field;
  valid ← logical_not_st mask;
  nvalid ← sum_axis0_st valid;
  index ← less_st nvalid nvalid_min;
  _ ← setitem_masked_st values index;
  mret (values, nvalid).

(** ** Angles

    Angles and distributions of angles are real numbers and lists of real
    numbers: plain arrays of finite values.  (A mask is not represented:
    the angular functions keep the mask of a masked array, [interval_mean]
    and [interval_std] drop it.)  A result that numpy can return as [inf]
    or [nan] is an extended real. *)

Inductive xreal : Type :=
| Fin (r : R)
| PInf
| NInf
| NaN.

Section Numpy.
Local Open Scope R_scope.

(** [numpy.log] of a real: [-inf] at zero and [nan] below, with a warning
    and no exception. *)
Definition np_log (x : R) : xreal :=
  if Rlt_dec 0 x then Fin (ln x)
  else if Rlt_dec x 0 then NaN
  else NInf.

(** [numpy.sqrt] of an extended real. *)
Definition np_sqrt (x : xreal) : xreal :=
  match x with
  | Fin r => if Rle_dec 0 r then Fin (sqrt r) else NaN
  | PInf => PInf
  | NInf => NaN
  | NaN => NaN
  end.

(** The infinity of the sign of [k], and [nan] for [k = 0]. *)
Definition signed_inf (k : R) : xreal :=
  if Rlt_dec 0 k then PInf
  else if Rlt_dec k 0 then NInf
  else NaN.

(** Product of an extended real and a real. *)
Definition xmul (x : xreal) (k : R) : xreal :=
  match x with
  | Fin r => Fin (r * k)
  | PInf => signed_inf k
  | NInf => signed_inf (- k)
  | NaN => NaN
  end.


(** [numpy.deg2rad] and [numpy.rad2deg], with the exact [PI].  In float64
    180 degrees become [numpy.pi], just below [PI], whose sine is 1.2e-16
    and not 0: a direction on the seam can come out as -180 where exact
    arithmetic gives 180. *)
Definition np_deg2rad (x : R) : R := x * (PI / 180).
Definition np_rad2deg (x : R) : R := x * (180 / PI).
Definition np_rad2deg_x (x : xreal) : xreal := xmul x (180 / PI).

Definition Rsum (l : list R) : R := fold_right Rplus 0 l.

(** [numpy.mean] of a non-empty array.  Of an empty array numpy returns
    [nan], which a real number cannot stand for: the statements about means
    are about non-empty distributions. *)
Definition np_mean (l : list R) : R := Rsum l / INR (length l).

(** [numpy.arctan2 y x] on the reals: the angle of the point [(x, y)], in
    [(-PI, PI]], and [0] at the origin. *)
Definition np_arctan2 (y x : R) : R :=
  if Rlt_dec 0 x then atan (y / x)
  else if Rlt_dec x 0 then
    (if Rle_dec 0 y then atan (y / x) + PI else atan (y / x) - PI)
  else if Rlt_dec 0 y then PI / 2
  else if Rlt_dec y 0 then - (PI / 2)
  else 0.

(** Lines 82 to 86. *)
Definition mean_of_two_angles (angles1 angles2 : list R) : list R :=
  let x := map (fun s => s / 2)
               (zip_with Rplus (map cos angles1) (map cos angles2)) in
  let y := map (fun s => s / 2)
               (zip_with Rplus (map sin angles1) (map sin angles2)) in
  zip_with np_arctan2 y x.

(** Lines 106 and 107. *)
Definition mean_of_two_angles_deg (angle1 angle2 : list R) : list R :=
  map np_rad2deg
    (mean_of_two_angles (map np_deg2rad angle1) (map np_deg2rad angle2)).

(** Lines 125 to 128. *)
Definition angular_mean (angles : list R) : R :=
  let x := map cos angles in
  let y := map sin angles in
  np_arctan2 (np_mean y) (np_mean x).

(** The [norm] of line 149 in exact arithmetic: the length of the mean
    resultant vector.  The argument of the square root is a sum of squares,
    never negative.  The float64 value of line 149 differs from this one
    by a rounding error, see [angular_std_fl]. *)
Definition angular_norm (angles : list R) : R :=
  let x := map cos angles in
  let y := map sin angles in
  sqrt ((np_mean x) ^ 2 + (np_mean y) ^ 2).

(** Lines 146 to 150. *)
Definition angular_std (angles : list R) : xreal :=
  let norm := angular_norm angles in
  np_sqrt (xmul (np_log norm) (-2)).

(** Line 150, as a function of the value of [norm]. *)
Definition angular_std_of_norm (norm : R) : xreal :=
  np_sqrt (xmul (np_log norm) (-2)).

(** Lines 146 to 150 as float64 runs them: the norm that reaches line 150
    is the exact norm and a rounding error [ε] (of the order of 1e-16),
    which can leave it above 1 for identical angles and above 0 for
    opposite ones.  [angular_std] is the case [ε = 0]. *)
Definition angular_std_fl (ε : R) (angles : list R) : xreal :=
  angular_std_of_norm (angular_norm angles + ε).

(** Line 168. *)
Definition angular_mean_deg (angles : list R) : R :=
  np_rad2deg (angular_mean (map np_deg2rad angles)).

(** Line 186. *)
Definition angular_std_deg (angles : list R) : xreal :=
  np_rad2deg_x (angular_std (map np_deg2rad angles)).


(** The change of variable of lines 211 to 213 and 242 to 244, in exact
    arithmetic: [interval_min] goes to [-PI] and [interval_max] to [PI],
    the two ends of the seam (in float64, to [-numpy.pi] and [numpy.pi] or
    a neighbour). *)
Definition to_angles (dist : list R) (half_width center : R) : list R :=
  map (fun d => (d - center) / half_width * PI) dist.

(** Lines 211 to 217. *)
Definition interval_mean (dist : list R) (interval_min interval_max : R) : R :=
  let half_width := (interval_max - interval_min) / 2 in
  let center := interval_min + half_width in
  let a := to_angles dist half_width center in
  let a_mean := angular_mean a in
  a_mean * half_width / PI + center.



(** [y] is [x] up to whole periods. *)
Definition congruent (period x y : R) : Prop :=
  ∃ k : Z, y = x + IZR k * period.

(** Two distributions that differ by whole turns, angle by angle. *)
Definition same_directions (angles angles' : list R) : Prop :=
  Forall2 (fun θ θ' => ∃ k : Z, θ' = θ + 2 * IZR k * PI) angles angles'.

End Numpy.

(** Fields written as in [numpy.ma]: [V q] is a valid datum, [M q] a datum
    under the mask. *)
Definition V (q : Q) : cell := Cell q false.
Definition M (q : Q) : cell := Cell q true.

(** The statistic [avg_type] selects, and the number of unmasked elements of
    a slice: the vocabulary of the statements below. *)
Definition stat_of (avg_type : string) : list Q → Q :=
  if String.eqb avg_type "mean" then plain_mean else plain_median.

Definition nvalid_of (l : list cell) : Z :=
  Z.of_nat (length (List.filter (fun c => negb (cmask c)) l)).

(** What one output position holds after line 60. *)
Definition output_cell (avg_type : string) (nvalid_min : Z) (l : list cell) : cell :=
  let c := ma_reduce (stat_of avg_type) l in
  if (nvalid_of l <? nvalid_min)%Z then set_mask c else c.

(** A field as numpy holds it: every row has the length of the first. *)
Definition rectangular {A} (m : list (list A)) : Prop :=
  Forall (fun r => length r = ncols m) m.

(** All the numbers of a list lie between [lo] and [hi]. *)
Definition within (lo hi : Q) (l : list Q) : Prop :=
  Forall (fun q => (lo <= q <= hi)%Q) l.

(** How a later minimum relates to an earlier one, element by element: the
    datum is the same, and a masked element stays masked. *)
Definition masks_more (c c' : cell) : Prop :=
  cdata c = cdata c' ∧ (cmask c = true → cmask c' = true).

(** * Properties of [compute_directional_stats] *)

Section DirectionalStats.

Lemma ncols_map {A B} (g : A → B) (m : list (list A)) :
  ncols (map (map g) m) = ncols m.
Proof. destruct m as [|r m]; simpl; [reflexivity | apply length_map]. Qed.

Lemma length_cols {A} (d : A) (m : list (list A)) :
  length (cols d m) = ncols m.
Proof. unfold cols. now rewrite length_map, length_seq. Qed.

Lemma col_map {A B} (g : A → B) (d : A) (m : list (list A)) (j : nat) :
  col (g d) (map (map g) m) j = map g (col d m j).
Proof.
  unfold col. rewrite !map_map. apply map_ext. intros r. apply map_nth.
Qed.

Lemma cols_map {A B} (g : A → B) (d : A) (m : list (list A)) :
  cols (g d) (map (map g) m) = map (map g) (cols d m).
Proof.
  unfold cols. rewrite ncols_map, map_map. apply map_ext.
  intros j. apply col_map.
Qed.

Lemma lookup_map {A B} (g : A → B) (l : list A) (j : nat) (x : A) :
  l !! j = Some x → map g l !! j = Some (g x).
Proof.
  revert j. induction l as [|y l IH]; intros [|j] H; simpl in *;
    try discriminate; [now inversion H | now apply IH].
Qed.

Lemma cols_lookup {A} (d : A) (m : list (list A)) (j : nat) :
  (j < ncols m)%nat → cols d m !! j = Some (col d m j).
Proof.
  intros Hj. unfold cols. rewrite list_lookup_fmap.
  now rewrite lookup_seq_lt.
Qed.

Lemma count_true_valid (l : list cell) :
  count_true (map (fun c => negb (cmask c)) l) = nvalid_of l.
Proof.
  unfold count_true, nvalid_of. f_equal.
  induction l as [|c l IH]; simpl; [reflexivity|].
  destruct (negb (cmask c)); simpl; now rewrite IH.
Qed.

Lemma nvalid_of_valid_data (l : list cell) :
  nvalid_of l = Z.of_nat (length (valid_data l)).
Proof. unfold nvalid_of, valid_data. now rewrite length_map. Qed.

Lemma nvalid_of_nonneg (l : list cell) : (0 ≤ nvalid_of l)%Z.
Proof. unfold nvalid_of. lia. Qed.

(** The counts of line 59 are taken column by column, whatever [axis] is. *)
Lemma nvalid_columns (f : field) :
  np_sum_axis0 (np_logical_not (np_ma_getmaskarray f))
  = map nvalid_of (cols masked_cell f).
Proof.
  unfold np_sum_axis0, np_logical_not, np_ma_getmaskarray.
  rewrite map_map.
  rewrite (map_ext (fun r => map negb (map cmask r))
                   (map (fun c => negb (cmask c)))) by (intros; apply map_map).
  change false with ((fun c => negb (cmask c)) masked_cell).
  rewrite cols_map, map_map. apply map_ext. intros l. apply count_true_valid.
Qed.

Lemma zip_with_map_same {A B C D} (g : B → C → D) (a : A → B) (b : A → C)
    (l : list A) :
  zip_with g (map a l) (map b l) = map (fun x => g (a x) (b x)) l.
Proof. induction l as [|x l IH]; simpl; [reflexivity | now rewrite IH]. Qed.

Lemma reduce_stat_of (f : field) (avg_type : string) (axis : Z) :
  (if String.eqb avg_type "mean" then np_ma_mean f axis else np_ma_median f axis)
  = (ax ← normalize_axis axis;
     Ok (map (ma_reduce (stat_of avg_type)) (lanes masked_cell ax f))).
Proof. unfold stat_of, np_ma_mean, np_ma_median. now destruct (String.eqb _ _). Qed.

Lemma setitem_masked_same_length (values : marray) (index : list bool) :
  length index = length values →
  setitem_masked values index
  = Ok (zip_with (fun c (b : bool) => if b then set_mask c else c)
                 values index).
Proof.
  intros H. unfold setitem_masked. destruct index as [|b index].
  - destruct values; [reflexivity | discriminate].
  - now rewrite H, Nat.eqb_refl.
Qed.

Lemma setitem_masked_mismatch (values : marray) (index : list bool) :
  index ≠ [] → length index ≠ length values →
  setitem_masked values index = Raise IndexError.
Proof.
  intros Hne H. unfold setitem_masked. destruct index as [|b index];
    [congruence|].
  apply Nat.eqb_neq in H. now rewrite H.
Qed.

(** Along axis 0 the function returns, for every column, the statistic of
    the column and its count of unmasked elements. *)
Lemma compute_directional_stats_axis0 (f : field) (avg_type : string) (nvalid_min : Z) :
  compute_directional_stats f avg_type nvalid_min 0
  = Ok (map (output_cell avg_type nvalid_min) (cols masked_cell f),
        map nvalid_of (cols masked_cell f)).
Proof.
  unfold compute_directional_stats.
  rewrite reduce_stat_of, nvalid_columns. simpl.
  rewrite setitem_masked_same_length
    by (unfold np_less; now rewrite !length_map).
  simpl. unfold np_less.
  rewrite map_map, zip_with_map_same. reflexivity.
Qed.

(** X21.  Along axis 0 the contract holds: the call returns, [values] and
    [nvalid] have one element per column, [nvalid] counts the unmasked
    elements of the column, and the value is masked wherever the count is
    below [nvalid_min]. *)
Lemma compute_directional_stats_axis0_contract
    (f : field) (avg_type : string) (nvalid_min : Z) :
  ∃ values nvalid,
    compute_directional_stats f avg_type nvalid_min 0 = Ok (values, nvalid)
    ∧ length values = ncols f
    ∧ length nvalid = ncols f
    ∧ ∀ j : nat,
        (j < ncols f)%nat →
        ∃ (c : cell) (n : Z),
          values !! j = Some c ∧ nvalid !! j = Some n
          ∧ n = nvalid_of (col masked_cell f j)
          ∧ (0 ≤ n)%Z
          ∧ ((n < nvalid_min)%Z → cmask c = true).
Proof.
  exists (map (output_cell avg_type nvalid_min) (cols masked_cell f)),
         (map nvalid_of (cols masked_cell f)).
  split; [apply compute_directional_stats_axis0|].
  rewrite !length_map, length_cols. repeat split.
  intros j Hj. pose proof (cols_lookup masked_cell f j Hj) as Hcol.
  eexists _, _.
  split; [apply (lookup_map _ _ _ _ Hcol)|].
  split; [apply (lookup_map _ _ _ _ Hcol)|].
  split; [reflexivity|]. split; [apply nvalid_of_nonneg|].
  intros Hlt. unfold output_cell.
  destruct (Z.ltb_spec (nvalid_of (col masked_cell f j)) nvalid_min);
    [reflexivity | lia].
Qed.

(** C1 (evaluation of the code where it departs from the claim).  With
    [axis = 1] the statistic is taken row by row, but the counts of line 59
    are still taken column by column ([axis=0] is written out there).  On
    the 2x2 field [[1, --], [2, --]] every row has one valid element, so the
    row counts are [1, 1] and both means are valid; the function returns
    [nvalid = [2, 0]] and masks the mean of the second row.  On a field
    that is not square the index of line 60 has the wrong length and the
    assignment raises [IndexError]. *)
Theorem compute_directional_stats_axis1_counts_columns :
  let field := [[V 1; M 0]; [V 2; M 0]] in
  map nvalid_of (lanes masked_cell 1 field) = [1; 1]%Z
  ∧ np_ma_mean field 1 = Ok [V 1; V 2]
  ∧ compute_directional_stats field "mean" 1 1 = Ok ([V 1; M 2], [2; 0]%Z)
  ∧ compute_directional_stats [[V 1; V 2; V 3]; [V 3; V 2; V 1]] "mean" 1 1
    = Raise IndexError.
Proof. repeat split; reflexivity. Qed.

(** C8 (the claim as stated fails).  With [nvalid_min = 0] a column that is
    masked throughout has at least [nvalid_min] valid entries, and the
    returned element is masked: it is no mean of valid entries. *)
Lemma masked_column_meets_zero_minimum :
  let field := [[M 5]] in
  let column := col masked_cell field 0 in
  (0 ≤ nvalid_of column)%Z
  ∧ ∃ values nvalid,
      compute_directional_stats field "mean" 0 0 = Ok (values, nvalid)
      ∧ nvalid !! 0%nat = Some 0%Z
      ∧ values !! 0%nat = Some masked_cell
      ∧ values !! 0%nat ≠ Some (V (plain_mean (valid_data column))).
Proof.
  simpl. split; [unfold nvalid_of; simpl; lia|].
  exists [masked_cell], [0%Z]. repeat split; try reflexivity.
  intros H. discriminate H.
Qed.

(** C8 (amended).  The median of [[1,2,3],[3,2,1]] along axis 0 is
    [2,2,2] with [nvalid = [2,2,2]]; and along axis 0, for every field,
    every [avg_type] and every [nvalid_min], the call returns, and at every
    column that has at least [nvalid_min] valid entries and at least one,
    [values] holds, unmasked, the plain mean or median of the valid entries
    of the column, and [nvalid] their number. *)
Theorem compute_directional_stats_plain_statistic :
  compute_directional_stats [[V 1; V 2; V 3]; [V 3; V 2; V 1]] "median" 1 0
  = Ok ([V 2; V 2; V 2], [2; 2; 2]%Z)
  ∧ ∀ (f : field) (avg_type : string) (nvalid_min : Z),
      ∃ values nvalid,
        compute_directional_stats f avg_type nvalid_min 0 = Ok (values, nvalid)
        ∧ ∀ j : nat,
            (j < ncols f)%nat →
            let column := col masked_cell f j in
            (nvalid_min ≤ nvalid_of column)%Z →
            (1 ≤ nvalid_of column)%Z →
            values !! j = Some (V (stat_of avg_type (valid_data column)))
            ∧ nvalid !! j = Some (nvalid_of column).
Proof.
  split; [reflexivity|].
  intros f avg_type nvalid_min.
  exists (map (output_cell avg_type nvalid_min) (cols masked_cell f)),
         (map nvalid_of (cols masked_cell f)).
  split; [apply compute_directional_stats_axis0|].
  intros j Hj column Hmin Hone.
  pose proof (cols_lookup masked_cell f j Hj) as Hcol. fold column in Hcol.
  split; [|apply (lookup_map nvalid_of _ _ _ Hcol)].
  rewrite (lookup_map (output_cell avg_type nvalid_min) _ _ _ Hcol). f_equal.
  unfold output_cell.
  destruct (Z.ltb_spec (nvalid_of column) nvalid_min) as [Hlt|_]; [lia|].
  unfold ma_reduce.
  rewrite nvalid_of_valid_data in Hone.
  destruct (valid_data column) as [|q v]; [simpl in Hone; lia | reflexivity].
Qed.

Lemma compute_directional_stats_plain_statistic_witness :
  ∃ values nvalid,
    compute_directional_stats [[V 4; M 9]; [V 6; V 1]] "mean" 1 0
    = Ok (values, nvalid)
    ∧ values !! 0%nat = Some (V 5) ∧ nvalid !! 0%nat = Some 2%Z.
Proof.
  destruct (proj2 compute_directional_stats_plain_statistic
              [[V 4; M 9]; [V 6; V 1]] "mean" 1%Z) as (values & nvalid & Hrun & Hcol).
  exists values, nvalid. split; [exact Hrun|].
  apply (Hcol 0%nat); [unfold ncols; simpl; lia | vm_compute; discriminate
                      | vm_compute; discriminate].
Defined.

(** C10.  An [avg_type] other than ["mean"] is not rejected: the call does
    what the call with ["median"] does, whatever the field, the minimum and
    the axis; along axis 0 it returns. *)
Theorem compute_directional_stats_unknown_avg_type
    (f : field) (avg_type : string) (nvalid_min axis : Z) :
  avg_type ≠ "mean" →
  compute_directional_stats f avg_type nvalid_min axis
  = compute_directional_stats f "median" nvalid_min axis
  ∧ compute_directional_stats f avg_type nvalid_min axis
    = (values ← np_ma_median f axis;
       values ← setitem_masked values
         (np_less (np_sum_axis0 (np_logical_not (np_ma_getmaskarray f)))
                  nvalid_min);
       Ok (values, np_sum_axis0 (np_logical_not (np_ma_getmaskarray f))))
  ∧ ∃ r, compute_directional_stats f avg_type nvalid_min 0 = Ok r.
Proof.
  intros Hne. apply String.eqb_neq in Hne.
  split; [|split].
  - unfold compute_directional_stats. now rewrite Hne.
  - unfold compute_directional_stats. now rewrite Hne.
  - rewrite compute_directional_stats_axis0. eauto.
Qed.

Lemma compute_directional_stats_unknown_avg_type_witness :
  compute_directional_stats [[V 1; V 2; V 3]; [V 3; V 2; V 1]] "Mean" 1 0
  = compute_directional_stats [[V 1; V 2; V 3]; [V 3; V 2; V 1]] "median" 1 0.
Proof.
  apply (compute_directional_stats_unknown_avg_type
           [[V 1; V 2; V 3]; [V 3; V 2; V 1]] "Mean" 1 0).
  discriminate.
Defined.

End DirectionalStats.

(** * The store: what the call writes *)

Section Store.
Implicit Types (h : gmap loc obj) (a l : loc).

Lemma fresh_None h : h !! fresh (dom h) = None.
Proof. apply not_elem_of_dom, is_fresh. Qed.

Lemma fresh_ne h a o : h !! a = Some o → fresh (dom h) ≠ a.
Proof. intros H E. rewrite <- E, fresh_None in H. discriminate. Qed.

Lemma alloc_extends h o : h ⊆ <[fresh (dom h) := o]> h.
Proof. apply insert_subseteq, fresh_None. Qed.

Lemma alloc_keeps h a o o' :
  h !! a = Some o → <[fresh (dom h) := o']> h !! a = Some o.
Proof. intros H. rewrite lookup_insert_ne; [exact H | eapply fresh_ne, H]. Qed.

(** The first call of the source: a new array, or the exception of the
    reduction. *)
Lemma reduce_st_run h a (f : field) (avg_type : string) (axis : Z) :
  h !! a = Some (OMasked2 f) →
  (if String.eqb avg_type "mean" then ma_mean_st a axis
   else ma_median_st a axis) h
  = match (if String.eqb avg_type "mean" then np_ma_mean f axis
           else np_ma_median f axis) with
    | Ok v => (Ok (fresh (dom h)), <[fresh (dom h) := OMasked1 v]> h)
    | Raise e => (Raise e, h)
    end.
Proof.
  intros Ha.
  destruct (String.eqb avg_type "mean");
    unfold ma_mean_st, ma_median_st, load_field, load, lift, alloc;
    unfold mbind, st_bind, mret, st_ret; rewrite Ha;
    [destruct (np_ma_mean f axis) | destruct (np_ma_median f axis)];
    reflexivity.
Qed.

Lemma getmaskarray_st_run h a (f : field) :
  h !! a = Some (OMasked2 f) →
  getmaskarray_st a h
  = (Ok (fresh (dom h)), <[fresh (dom h) := OBool2 (np_ma_getmaskarray f)]> h).
Proof.
  intros Ha. unfold getmaskarray_st, load_field, load, alloc.
  unfold mbind, st_bind, mret, st_ret. now rewrite Ha.
Qed.

Lemma logical_not_st_run h a (m : list (list bool)) :
  h !! a = Some (OBool2 m) →
  logical_not_st a h
  = (Ok (fresh (dom h)), <[fresh (dom h) := OBool2 (np_logical_not m)]> h).
Proof.
  intros Ha. unfold logical_not_st, load_bool2, load, alloc.
  unfold mbind, st_bind, mret, st_ret. now rewrite Ha.
Qed.

Lemma sum_axis0_st_run h a (m : list (list bool)) :
  h !! a = Some (OBool2 m) →
  sum_axis0_st a h
  = (Ok (fresh (dom h)), <[fresh (dom h) := OInt1 (np_sum_axis0 m)]> h).
Proof.
  intros Ha. unfold sum_axis0_st, load_bool2, load, alloc.
  unfold mbind, st_bind, mret, st_ret. now rewrite Ha.
Qed.

Lemma less_st_run h a (n : list Z) (k : Z) :
  h !! a = Some (OInt1 n) →
  less_st a k h
  = (Ok (fresh (dom h)), <[fresh (dom h) := OBool1 (np_less n k)]> h).
Proof.
  intros Ha. unfold less_st, load_int1, load, alloc.
  unfold mbind, st_bind, mret, st_ret. now rewrite Ha.
Qed.

Lemma setitem_masked_st_run h a l (v : marray) (i : list bool) :
  h !! a = Some (OMasked1 v) →
  h !! l = Some (OBool1 i) →
  setitem_masked_st a l h
  = match setitem_masked v i with
    | Ok v' => (Ok (), <[a := OMasked1 v']> h)
    | Raise e => (Raise e, h)
    end.
Proof.
  intros Ha Hl. unfold setitem_masked_st, load_marray, load_bool1, load, lift, store.
  unfold mbind, st_bind, mret, st_ret. rewrite Ha, Hl.
  now destruct (setitem_masked v i).
Qed.

(** C9.  The call reads the field at address [a] and writes nowhere but in
    the arrays it allocates itself: every array of the store is found
    again unchanged after the call, the field and its mask among them,
    whether the call returns or raises.  When it returns, [values] and
    [nvalid] are at addresses that were free before the call, and hold what
    the function computes from the field.  (The other functions of the
    module call numpy functions that return new arrays and assign to no
    item; they are functions of the values of their arguments.) *)
Theorem compute_directional_stats_frame
    h a (f : field) (avg_type : string) (nvalid_min axis : Z) :
  h !! a = Some (OMasked2 f) →
  ∃ r h',
    compute_directional_stats_st a avg_type nvalid_min axis h = (r, h')
    ∧ h ⊆ h'
    ∧ h' !! a = Some (OMasked2 f)
    ∧ match r with
      | Ok (lv, ln) =>
          ∃ values nvalid,
            compute_directional_stats f avg_type nvalid_min axis
            = Ok (values, nvalid)
            ∧ h !! lv = None ∧ h !! ln = None
            ∧ h' !! lv = Some (OMasked1 values)
            ∧ h' !! ln = Some (OInt1 nvalid)
      | Raise e =>
          compute_directional_stats f avg_type nvalid_min axis = Raise e
      end.
Proof.
  intros Ha.
  unfold compute_directional_stats_st, compute_directional_stats.
  unfold mbind at 1, st_bind at 1. rewrite (reduce_st_run _ _ _ _ _ Ha).
  destruct (if String.eqb avg_type "mean" then np_ma_mean f axis
            else np_ma_median f axis) as [v|e].
  2:{ exists (Raise e), h. repeat split; [reflexivity | exact Ha]. }
  set (lv := fresh (dom h)). set (h1 := <[lv := OMasked1 v]> h).
  assert (H1 : h ⊆ h1) by apply alloc_extends.
  assert (Hv1 : h1 !! lv = Some (OMasked1 v)) by apply lookup_insert_eq.
  assert (Ha1 : h1 !! a = Some (OMasked2 f)) by (eapply lookup_weaken; eauto).
  unfold mbind at 1, st_bind at 1. rewrite (getmaskarray_st_run _ _ _ Ha1).
  set (lm := fresh (dom h1)).
  set (h2 := <[lm := OBool2 (np_ma_getmaskarray f)]> h1).
  assert (H2 : h1 ⊆ h2) by apply alloc_extends.
  assert (Hm2 : h2 !! lm = Some (OBool2 (np_ma_getmaskarray f)))
    by apply lookup_insert_eq.
  unfold mbind at 1, st_bind at 1. rewrite (logical_not_st_run _ _ _ Hm2).
  set (valid := np_logical_not (np_ma_getmaskarray f)).
  set (lb := fresh (dom h2)). set (h3 := <[lb := OBool2 valid]> h2).
  assert (H3 : h2 ⊆ h3) by apply alloc_extends.
  assert (Hb3 : h3 !! lb = Some (OBool2 valid)) by apply lookup_insert_eq.
  unfold mbind at 1, st_bind at 1. rewrite (sum_axis0_st_run _ _ _ Hb3).
  set (nvalid := np_sum_axis0 valid).
  set (ln := fresh (dom h3)). set (h4 := <[ln := OInt1 nvalid]> h3).
  assert (H4 : h3 ⊆ h4) by apply alloc_extends.
  assert (Hn4 : h4 !! ln = Some (OInt1 nvalid)) by apply lookup_insert_eq.
  unfold mbind at 1, st_bind at 1. rewrite (less_st_run _ _ _ nvalid_min Hn4).
  set (li := fresh (dom h4)).
  set (h5 := <[li := OBool1 (np_less nvalid nvalid_min)]> h4).
  assert (H5 : h4 ⊆ h5) by apply alloc_extends.
  assert (Hi5 : h5 !! li = Some (OBool1 (np_less nvalid nvalid_min)))
    by apply lookup_insert_eq.
  assert (H03 : h ⊆ h3) by (etrans; [exact H1|]; etrans; eassumption).
  assert (H15 : h1 ⊆ h5).
  { etrans; [exact H2|]. etrans; [exact H3|]. etrans; eassumption. }
  assert (H05 : h ⊆ h5) by (etrans; [exact H1 | exact H15]).
  assert (Hv5 : h5 !! lv = Some (OMasked1 v))
    by (eapply lookup_weaken; [exact Hv1 | exact H15]).
  assert (Hn5 : h5 !! ln = Some (OInt1 nvalid))
    by (eapply lookup_weaken; [exact Hn4 | exact H5]).
  assert (Hlv : h !! lv = None) by apply fresh_None.
  assert (Hln : h !! ln = None).
  { destruct (h !! ln) as [o|] eqn:E; [|reflexivity].
    assert (h3 !! ln = Some o) by (eapply lookup_weaken; [exact E | exact H03]).
    pose proof (fresh_None h3) as F. fold ln in F. congruence. }
  unfold mbind at 1, st_bind at 1.
  rewrite (setitem_masked_st_run _ _ _ _ _ Hv5 Hi5).
  simpl.
  destruct (setitem_masked v (np_less nvalid nvalid_min)) as [v'|e]; simpl.
  - exists (Ok (lv, ln)), (<[lv := OMasked1 v']> h5).
    split; [reflexivity|]. split; [|split].
    + apply insert_subseteq_r; assumption.
    + rewrite lookup_insert_ne; [eapply lookup_weaken; eauto|].
      intros E. rewrite E in Hlv. congruence.
    + exists v', nvalid. repeat split; try assumption.
      * apply lookup_insert_eq.
      * rewrite lookup_insert_ne; [exact Hn5|].
        intros E. rewrite <- E in Hn5. rewrite Hv5 in Hn5. discriminate.
  - exists (Raise e), h5. repeat split; [assumption|].
    eapply lookup_weaken; eauto.
Qed.

Lemma compute_directional_stats_frame_witness :
  ∃ r h',
    compute_directional_stats_st 7%nat "mean" 1 0
      {[ 7%nat := OMasked2 [[V 1; M 0]; [V 2; M 0]] ]} = (r, h')
    ∧ h' !! 7%nat = Some (OMasked2 [[V 1; M 0]; [V 2; M 0]]).
Proof.
  destruct (compute_directional_stats_frame
              {[ 7%nat := OMasked2 [[V 1; M 0]; [V 2; M 0]] ]} 7%nat
              [[V 1; M 0]; [V 2; M 0]] "mean" 1 0)
    as (r & h' & Hrun & _ & Hfield & _).
  - apply lookup_singleton_eq.
  - exists r, h'. split; assumption.
Defined.

End Store.

(** * Properties of the angular functions *)

Section Angular.
Local Open Scope R_scope.
Implicit Types (x y θ : R) (angles dist : list R).


(** ** The arctangent of two arguments *)

Lemma atan_nonpos x : x <= 0 → atan x <= 0.
Proof.
  intros [H| ->]; [|rewrite atan_0; lra].
  apply atan_increasing in H. rewrite atan_0 in H. lra.
Qed.

Lemma atan_pos x : 0 < x → 0 < atan x.
Proof. intros H. apply atan_increasing in H. now rewrite atan_0 in H. Qed.

Lemma div_neg_nonpos y x : x < 0 → 0 <= y → y / x <= 0.
Proof.
  intros Hx Hy. unfold Rdiv. pose proof (Rinv_neg x Hx). nra.
Qed.

Lemma div_neg_pos y x : x < 0 → y < 0 → 0 < y / x.
Proof.
  intros Hx Hy. unfold Rdiv. pose proof (Rinv_neg x Hx). nra.
Qed.

Lemma np_arctan2_range y x : - PI < np_arctan2 y x <= PI.
Proof.
  pose proof PI_RGT_0 as Hpi. pose proof (atan_bound (y / x)) as Hb.
  unfold np_arctan2.
  destruct (Rlt_dec 0 x) as [Hx|Hx]; [lra|].
  destruct (Rlt_dec x 0) as [Hx'|Hx'].
  - destruct (Rle_dec 0 y) as [Hy|Hy].
    + pose proof (atan_nonpos _ (div_neg_nonpos y x Hx' Hy)). lra.
    + assert (0 < atan (y / x)) by (apply atan_pos, div_neg_pos; lra). lra.
  - destruct (Rlt_dec 0 y); [lra|]. destruct (Rlt_dec y 0); lra.
Qed.

(** ** Sums and means *)

Lemma Rsum_map_opp {A} (g : A → R) (l : list A) :
  Rsum (map (fun a => - g a) l) = - Rsum (map g l).
Proof. induction l as [|a l IH]; simpl; [lra | rewrite IH; lra]. Qed.

Lemma np_mean_map_opp {A} (g : A → R) (l : list A) :
  np_mean (map (fun a => - g a) l) = - np_mean (map g l).
Proof.
  unfold np_mean. rewrite Rsum_map_opp, !length_map. unfold Rdiv. lra.
Qed.

(** ** Turns *)

Lemma cos_turns θ (k : Z) : cos (θ + 2 * IZR k * PI) = cos θ.
Proof.
  destruct (Z_le_gt_dec 0 k) as [Hk|Hk].
  - rewrite <- (Z2Nat.id k Hk), <- INR_IZR_INZ. apply cos_period.
  - rewrite <- (cos_period (θ + 2 * IZR k * PI) (Z.to_nat (- k))).
    rewrite INR_IZR_INZ, Z2Nat.id by lia. rewrite opp_IZR. f_equal. lra.
Qed.

Lemma sin_turns θ (k : Z) : sin (θ + 2 * IZR k * PI) = sin θ.
Proof.
  destruct (Z_le_gt_dec 0 k) as [Hk|Hk].
  - rewrite <- (Z2Nat.id k Hk), <- INR_IZR_INZ. apply sin_period.
  - rewrite <- (sin_period (θ + 2 * IZR k * PI) (Z.to_nat (- k))).
    rewrite INR_IZR_INZ, Z2Nat.id by lia. rewrite opp_IZR. f_equal. lra.
Qed.

Lemma same_directions_cos angles angles' :
  same_directions angles angles' → map cos angles' = map cos angles.
Proof.
  induction 1 as [|θ θ' l l' [k ->] _ IH]; simpl; [reflexivity|].
  now rewrite cos_turns, IH.
Qed.

Lemma same_directions_sin angles angles' :
  same_directions angles angles' → map sin angles' = map sin angles.
Proof.
  induction 1 as [|θ θ' l l' [k ->] _ IH]; simpl; [reflexivity|].
  now rewrite sin_turns, IH.
Qed.

(** C5.  For a non-empty distribution, [angular_mean] is the arctangent of
    (mean of the sines, mean of the cosines), it lies in (-PI, PI], and it
    does not change when whole turns are added to any of the angles; in
    particular [angular_mean [θ + 2 k PI] = angular_mean [θ]]. *)
Theorem angular_mean_turn_invariant angles :
  angles ≠ [] →
  angular_mean angles
  = np_arctan2 (np_mean (map sin angles)) (np_mean (map cos angles))
  ∧ - PI < angular_mean angles <= PI
  ∧ (∀ angles', same_directions angles angles' →
       angular_mean angles' = angular_mean angles)
  ∧ (∀ θ (k : Z), angular_mean [θ + 2 * IZR k * PI] = angular_mean [θ]).
Proof.
  intros _. split; [reflexivity|]. split; [apply np_arctan2_range|]. split.
  - intros angles' H. unfold angular_mean.
    now rewrite (same_directions_cos _ _ H), (same_directions_sin _ _ H).
  - intros θ k. unfold angular_mean. simpl.
    now rewrite cos_turns, sin_turns.
Qed.

Lemma angular_mean_turn_invariant_witness :
  angular_mean [0 + 2 * IZR 3 * PI; PI / 2 + 2 * IZR (-1) * PI]
  = angular_mean [0; PI / 2].
Proof.
  assert (H : [0; PI / 2] ≠ []) by discriminate.
  apply (proj1 (proj2 (proj2 (angular_mean_turn_invariant [0; PI / 2] H)))).
  repeat constructor; eexists; reflexivity.
Defined.

(** ** The length of the mean resultant vector *)

Lemma Rsum_repeat (c : R) (n : nat) : Rsum (repeat c n) = INR n * c.
Proof.
  induction n as [|n IH]; [simpl; lra|].
  change (repeat c (S n)) with (c :: repeat c n). simpl Rsum.
  rewrite IH, S_INR. lra.
Qed.

Lemma map_repeat {A B} (g : A → B) (a : A) (n : nat) :
  map g (repeat a n) = repeat (g a) n.
Proof. induction n as [|n IH]; simpl; [reflexivity | now rewrite IH]. Qed.

Lemma angular_norm_repeat θ (n : nat) : angular_norm (repeat θ (S n)) = 1.
Proof.
  unfold angular_norm, np_mean.
  rewrite !map_repeat, !Rsum_repeat, !repeat_length.
  assert (Hn : 0 < INR (S n)) by (rewrite S_INR; pose proof (pos_INR n); lra).
  replace (INR (S n) * cos θ / INR (S n)) with (cos θ) by (field; lra).
  replace (INR (S n) * sin θ / INR (S n)) with (sin θ) by (field; lra).
  pose proof (sin2_cos2 θ) as Hu. unfold Rsqr in Hu.
  replace (cos θ ^ 2 + sin θ ^ 2) with 1 by (rewrite <- Hu; ring).
  apply sqrt_1.
Qed.

Lemma angular_std_of_norm_unit (norm : R) :
  0 < norm <= 1 → angular_std_of_norm norm = Fin (sqrt (-2 * ln norm)).
Proof.
  intros [Hpos Hle]. unfold angular_std_of_norm, np_log.
  destruct (Rlt_dec 0 norm) as [_|H]; [|contradiction]. simpl.
  assert (Hln : ln norm <= 0).
  { destruct Hle as [Hlt| ->]; [|rewrite ln_1; lra].
    apply ln_increasing in Hlt; [|exact Hpos]. rewrite ln_1 in Hlt. lra. }
  destruct (Rle_dec 0 (ln norm * -2)) as [_|H]; [|lra].
  do 2 f_equal. ring.
Qed.

Lemma angular_std_of_norm_above (norm : R) :
  1 < norm → angular_std_of_norm norm = NaN.
Proof.
  intros Hgt. unfold angular_std_of_norm, np_log.
  destruct (Rlt_dec 0 norm) as [_|H]; [|lra]. simpl.
  assert (Hln : 0 < ln norm).
  { rewrite <- ln_1. apply ln_increasing; lra. }
  destruct (Rle_dec 0 (ln norm * -2)) as [H|_]; [lra | reflexivity].
Qed.

Lemma angular_std_of_norm_zero : angular_std_of_norm 0 = PInf.
Proof.
  unfold angular_std_of_norm, np_log.
  destruct (Rlt_dec 0 0) as [H|_]; [lra|]. simpl. unfold signed_inf.
  destruct (Rlt_dec 0 (- -2)) as [_|H]; [reflexivity | lra].
Qed.

(** C4 (the claim as stated fails).  For the identical angles
    [50, 50, 50] the exact norm is 1, and float64 computes
    1.0000000000000002, that is a rounding error of 2^-52: the logarithm is
    positive, the argument of the square root negative, and the result is
    [nan], not [0]. *)
Lemma angular_std_identical_above_one :
  angular_norm [50; 50; 50] = 1
  ∧ angular_std_fl (/ 2 ^ 52) [50; 50; 50] = NaN
  ∧ angular_std_fl (/ 2 ^ 52) [50; 50; 50] ≠ Fin 0.
Proof.
  assert (Hn : angular_norm [50; 50; 50] = 1)
    by apply (angular_norm_repeat 50 2).
  assert (He : 0 < / 2 ^ 52) by (apply Rinv_0_lt_compat, pow_lt; lra).
  assert (Hs : angular_std_fl (/ 2 ^ 52) [50; 50; 50] = NaN).
  { unfold angular_std_fl. apply angular_std_of_norm_above.
    rewrite Hn. lra. }
  split; [exact Hn|]. split; [exact Hs|]. rewrite Hs. discriminate.
Qed.

(** C4 (amended).  [angular_std] applies [sqrt (-2 ln norm)] to the norm of
    the mean resultant vector as line 149 computed it, that is the exact
    norm [sqrt (mean (cos)^2 + mean (sin)^2)] and its rounding error [ε].
    For a norm in (0, 1] the result is that number, [0] at [norm = 1]; at
    [norm = 0] it is [+inf]; for a norm that rounding left above 1, as it
    can for identical angles, it is [nan].  In every case a value is
    returned: nothing is raised.  In exact arithmetic ([ε = 0]) this is
    [angular_std]. *)
Theorem angular_std_formula angles (ε : R) :
  let norm := sqrt ((np_mean (map cos angles)) ^ 2
                    + (np_mean (map sin angles)) ^ 2) + ε in
  (0 < norm <= 1 → angular_std_fl ε angles = Fin (sqrt (-2 * ln norm)))
  ∧ (norm = 1 → angular_std_fl ε angles = Fin 0)
  ∧ (norm = 0 → angular_std_fl ε angles = PInf)
  ∧ (1 < norm → angular_std_fl ε angles = NaN)
  ∧ angular_std_fl 0 angles = angular_std angles.
Proof.
  intros norm. unfold angular_std_fl.
  fold (angular_norm angles) in norm. fold norm.
  split; [apply angular_std_of_norm_unit|].
  split; [|split; [|split]].
  - intros H1. rewrite angular_std_of_norm_unit by lra.
    rewrite H1, ln_1, Rmult_0_r. f_equal. apply sqrt_0.
  - intros ->. apply angular_std_of_norm_zero.
  - apply angular_std_of_norm_above.
  - rewrite Rplus_0_r. reflexivity.
Qed.

Lemma angular_std_formula_witness :
  angular_std_fl 0 [PI / 4; PI / 4; PI / 4] = Fin 0
  ∧ angular_std_fl 1 [PI / 4; PI / 4; PI / 4] = NaN.
Proof.
  assert (Hn : angular_norm [PI / 4; PI / 4; PI / 4] = 1)
    by apply (angular_norm_repeat (PI / 4) 2).
  unfold angular_norm in Hn. split.
  - apply (proj1 (proj2 (angular_std_formula [PI / 4; PI / 4; PI / 4] 0))).
    rewrite Hn. lra.
  - apply (proj1 (proj2 (proj2 (proj2
             (angular_std_formula [PI / 4; PI / 4; PI / 4] 1))))).
    rewrite Hn. lra.
Defined.

(** ** Two angles *)

Lemma np_arctan2_0_pos x : 0 < x → np_arctan2 0 x = 0.
Proof.
  intros Hx. unfold np_arctan2.
  destruct (Rlt_dec 0 x) as [_|H]; [|contradiction].
  unfold Rdiv. rewrite Rmult_0_l. apply atan_0.
Qed.

Lemma np_arctan2_0_neg x : x < 0 → np_arctan2 0 x = PI.
Proof.
  intros Hx. unfold np_arctan2.
  destruct (Rlt_dec 0 x) as [H|_]; [lra|].
  destruct (Rlt_dec x 0) as [_|H]; [|contradiction].
  destruct (Rle_dec 0 0) as [_|H]; [|lra].
  unfold Rdiv. rewrite Rmult_0_l, atan_0. lra.
Qed.

Lemma mean_of_two_angles_length angles1 angles2 :
  length angles1 = length angles2 →
  length (mean_of_two_angles angles1 angles2) = length angles1.
Proof.
  unfold mean_of_two_angles. revert angles2.
  induction angles1 as [|a1 l1 IH]; intros [|a2 l2] H; simpl in *;
    try discriminate; [reflexivity|].
  f_equal. apply IH. lia.
Qed.

Lemma mean_of_two_angles_lookup angles1 angles2 (i : nat) (a1 a2 : R) :
  angles1 !! i = Some a1 → angles2 !! i = Some a2 →
  mean_of_two_angles angles1 angles2 !! i
  = Some (np_arctan2 ((sin a1 + sin a2) / 2) ((cos a1 + cos a2) / 2)).
Proof.
  unfold mean_of_two_angles. revert angles2 i.
  induction angles1 as [|b1 l1 IH]; intros [|b2 l2] [|i] H1 H2; simpl in *;
    try discriminate.
  - now inversion H1; inversion H2.
  - now apply IH.
Qed.

Lemma deg_359 :
  cos (np_deg2rad 359) = cos (np_deg2rad 1)
  ∧ sin (np_deg2rad 359) = - sin (np_deg2rad 1).
Proof.
  replace (np_deg2rad 359) with (- np_deg2rad 1 + 2 * IZR 1 * PI)
    by (unfold np_deg2rad; lra).
  rewrite cos_turns, sin_turns, cos_neg, sin_neg. split; reflexivity.
Qed.

(** C6.  On two arrays of one shape, [mean_of_two_angles] returns an array
    of that shape whose element [i] is the arctangent of the half sums of
    the sines and of the cosines of the two elements [i]; and
    [mean_of_two_angles_deg 359 1] is [0], not [180]. *)
Theorem mean_of_two_angles_pairwise :
  (∀ angles1 angles2,
     length angles1 = length angles2 →
     length (mean_of_two_angles angles1 angles2) = length angles1
     ∧ ∀ (i : nat) (a1 a2 : R),
         angles1 !! i = Some a1 → angles2 !! i = Some a2 →
         mean_of_two_angles angles1 angles2 !! i
         = Some (np_arctan2 ((sin a1 + sin a2) / 2) ((cos a1 + cos a2) / 2)))
  ∧ mean_of_two_angles_deg [359] [1] = [0]
  ∧ mean_of_two_angles_deg [359] [1] ≠ [180].
Proof.
  assert (H0 : mean_of_two_angles_deg [359] [1] = [0]).
  { unfold mean_of_two_angles_deg, mean_of_two_angles. simpl.
    destruct deg_359 as [-> ->].
    assert (Hc : 0 < cos (np_deg2rad 1)).
    { pose proof PI_RGT_0. apply cos_gt_0; unfold np_deg2rad; lra. }
    replace ((- sin (np_deg2rad 1) + sin (np_deg2rad 1)) / 2) with 0 by lra.
    rewrite np_arctan2_0_pos by lra.
    unfold np_rad2deg. now rewrite Rmult_0_l. }
  split; [|split].
  - intros angles1 angles2 Hlen. split.
    + now apply mean_of_two_angles_length.
    + intros i a1 a2. apply mean_of_two_angles_lookup.
  - exact H0.
  - rewrite H0. intros E. inversion E. lra.
Qed.

Lemma mean_of_two_angles_pairwise_witness :
  mean_of_two_angles [0; PI] [PI / 2; PI] !! 1%nat
  = Some (np_arctan2 ((sin PI + sin PI) / 2) ((cos PI + cos PI) / 2)).
Proof.
  apply (proj2 (proj1 mean_of_two_angles_pairwise [0; PI] [PI / 2; PI]
                  eq_refl) 1%nat PI PI); reflexivity.
Defined.

(** ** Degrees *)

Lemma np_rad2deg_deg2rad x : np_rad2deg (np_deg2rad x) = x.
Proof.
  unfold np_rad2deg, np_deg2rad. pose proof PI_RGT_0. field. lra.
Qed.

(** C7.  The degree variants are the radian functions between the two
    conversions: [angular_mean_deg x = rad2deg (angular_mean (deg2rad x))],
    and the same for [angular_std_deg]; the conversions are inverse to
    each other, and the mean in degrees lies between -180 and 180. *)
Theorem angular_deg_round_trip angles :
  angular_mean_deg angles = np_rad2deg (angular_mean (map np_deg2rad angles))
  ∧ angular_std_deg angles
    = np_rad2deg_x (angular_std (map np_deg2rad angles))
  ∧ angular_mean_deg angles
    = np_arctan2 (np_mean (map (fun d => sin (d * (PI / 180))) angles))
                 (np_mean (map (fun d => cos (d * (PI / 180))) angles))
      * (180 / PI)
  ∧ (∀ x, np_rad2deg (np_deg2rad x) = x)
  ∧ -180 <= angular_mean_deg angles <= 180.
Proof.
  split; [reflexivity|]. split; [reflexivity|]. split; [|split].
  - unfold angular_mean_deg, angular_mean, np_rad2deg.
    now rewrite !map_map.
  - apply np_rad2deg_deg2rad.
  - unfold angular_mean_deg, np_rad2deg.
    pose proof (np_arctan2_range
                  (np_mean (map sin (map np_deg2rad angles)))
                  (np_mean (map cos (map np_deg2rad angles)))) as Hr.
    fold (angular_mean (map np_deg2rad angles)) in Hr.
    pose proof PI_RGT_0 as Hpi.
    set (m := angular_mean (map np_deg2rad angles)) in *.
    assert (Hk : 0 < 180 / PI) by (apply Rdiv_lt_0_compat; lra).
    assert (E : PI * (180 / PI) = 180) by (field; lra).
    set (k := 180 / PI) in *.
    assert (m * k <= PI * k) by (apply Rmult_le_compat_r; lra).
    assert (- PI * k < m * k) by (apply Rmult_lt_compat_r; lra).
    lra.
Qed.

(** ** Intervals *)

(** On the interval from 0 to 360 the change of variable sends [d] to the
    angle of [d] degrees, less half a turn. *)
Lemma to_angles_deg dist :
  to_angles dist ((360 - 0) / 2) (0 + (360 - 0) / 2)
  = map (fun d => np_deg2rad d - PI) dist.
Proof.
  unfold to_angles. apply map_ext. intros d. unfold np_deg2rad.
  pose proof PI_RGT_0. field.
Qed.

Lemma cos_half_turn x : cos (x - PI) = - cos x.
Proof. rewrite cos_minus, cos_PI, sin_PI. ring. Qed.

Lemma sin_half_turn x : sin (x - PI) = - sin x.
Proof. rewrite sin_minus, cos_PI, sin_PI. ring. Qed.

Lemma interval_mean_deg dist :
  interval_mean dist 0 360
  = np_arctan2 (- np_mean (map sin (map np_deg2rad dist)))
               (- np_mean (map cos (map np_deg2rad dist)))
    * 180 / PI + 180.
Proof.
  unfold interval_mean. rewrite to_angles_deg. unfold angular_mean.
  rewrite !map_map.
  rewrite (map_ext (fun d => sin (np_deg2rad d - PI))
                   (fun d => - sin (np_deg2rad d)))
    by (intros; apply sin_half_turn).
  rewrite (map_ext (fun d => cos (np_deg2rad d - PI))
                   (fun d => - cos (np_deg2rad d)))
    by (intros; apply cos_half_turn).
  rewrite !np_mean_map_opp.
  replace ((360 - 0) / 2) with 180 by lra.
  replace (0 + 180) with 180 by lra. reflexivity.
Qed.

Lemma interval_mean_seam : interval_mean [359; 1] 0 360 = 360.
Proof.
  rewrite interval_mean_deg. unfold np_mean. simpl.
  destruct deg_359 as [Hc Hs]. rewrite Hc, Hs.
  set (c := cos (np_deg2rad 1)). set (s := sin (np_deg2rad 1)).
  assert (Hcpos : 0 < c).
  { pose proof PI_RGT_0. apply cos_gt_0; unfold np_deg2rad; lra. }
  replace (- ((- s + (s + 0)) / (1 + 1))) with 0 by lra.
  rewrite np_arctan2_0_neg by lra.
  pose proof PI_RGT_0. field. lra.
Qed.

(** C3 (the claim as stated fails).  [interval_mean [359, 1] 0 360] is not
    near [0]: it is a whole period away from it. *)
Lemma interval_mean_seam_not_near_zero :
  Rabs (interval_mean [359; 1] 0 360 - 0) = 360
  ∧ ¬ Rabs (interval_mean [359; 1] 0 360 - 0) < 1.
Proof.
  rewrite interval_mean_seam.
  replace (360 - 0) with 360 by lra.
  rewrite Rabs_pos_eq by lra. split; [reflexivity | lra].
Qed.

(** C3 (amended).  [interval_mean [359, 1] 0 360] is [360]: the two values
    on either side of the seam average to the seam, which is the point
    [0] of the circle (a whole period from [0]), and not to [180]. *)
Theorem interval_mean_wraps_to_seam :
  interval_mean [359; 1] 0 360 = 360
  ∧ interval_mean [359; 1] 0 360 = 0 + 1 * (360 - 0)
  ∧ interval_mean [359; 1] 0 360 ≠ 180.
Proof.
  rewrite interval_mean_seam. repeat split; lra.
Qed.














End Angular.

(** * Further laws of the angular functions *)

Section AngularLaws.
Local Open Scope R_scope.
Implicit Types (x y r θ c : R) (angles dist : list R).

Ltac cmp_cases :=
  match goal with
  | |- context [Rlt_dec ?a ?b] => destruct (Rlt_dec a b); try nra
  | |- context [Rle_dec ?a ?b] => destruct (Rle_dec a b); try nra
  end.

Lemma tan_scaled r θ : r ≠ 0 → cos θ ≠ 0 → r * sin θ / (r * cos θ) = tan θ.
Proof. intros Hr Hc. unfold tan. field. split; assumption. Qed.

(** The arctangent recovers the angle of a point given in polar form. *)
Lemma np_arctan2_polar r θ :
  0 < r → - PI < θ <= PI → np_arctan2 (r * sin θ) (r * cos θ) = θ.
Proof.
  intros Hr [Hlo Hhi]. pose proof PI_RGT_0 as Hpi.
  destruct (Rlt_dec θ (- (PI / 2))) as [H1|H1].
  - (* third quadrant *)
    assert (Hc : cos θ < 0).
    { rewrite <- cos_neg. apply cos_lt_0; lra. }
    assert (Hs : sin θ < 0) by (apply sin_lt_0_var; lra).
    unfold np_arctan2. repeat cmp_cases.
    rewrite tan_scaled by lra.
    assert (E : tan θ = tan (θ + PI)).
    { unfold tan. rewrite neg_sin, neg_cos. field. lra. }
    rewrite E, atan_tan by lra. lra.
  - destruct (Req_dec_T θ (- (PI / 2))) as [E|H2].
    + subst θ. rewrite cos_neg, sin_neg, cos_PI2, sin_PI2.
      unfold np_arctan2. repeat cmp_cases.
    + destruct (Rlt_dec θ (PI / 2)) as [H3|H3].
      * (* right half plane *)
        assert (Hc : 0 < cos θ) by (apply cos_gt_0; lra).
        unfold np_arctan2. repeat cmp_cases.
        rewrite tan_scaled by lra. apply atan_tan. lra.
      * destruct (Req_dec_T θ (PI / 2)) as [E|H4].
        -- subst θ. rewrite cos_PI2, sin_PI2.
           unfold np_arctan2. repeat cmp_cases.
        -- (* second quadrant *)
           assert (Hc : cos θ < 0) by (apply cos_lt_0; lra).
           assert (Hs : 0 <= sin θ) by (apply sin_ge_0; lra).
           unfold np_arctan2. repeat cmp_cases.
           rewrite tan_scaled by lra.
           assert (E : tan θ = tan (θ - PI)).
           { unfold tan. rewrite sin_minus, cos_minus, cos_PI, sin_PI.
             field. lra. }
           rewrite E, atan_tan by lra. lra.
Qed.

(** Every angle is brought into (-PI, PI] by a whole number of turns. *)
Lemma turn_into_range θ : ∃ k : Z, - PI < θ + 2 * IZR k * PI <= PI.
Proof.
  pose proof PI_RGT_0 as Hpi.
  set (t := (PI - θ) / (2 * PI)).
  assert (Ht : t * (2 * PI) = PI - θ) by (unfold t; field; lra).
  destruct (base_Int_part t) as [H1 H2].
  exists (Int_part t). split; nra.
Qed.

(** The arctangent recovers the angle of a point up to whole turns. *)
Lemma np_arctan2_polar_turn r θ :
  0 < r → congruent (2 * PI) θ (np_arctan2 (r * sin θ) (r * cos θ)).
Proof.
  intros Hr. destruct (turn_into_range θ) as [k Hk]. exists k.
  rewrite <- (sin_turns θ k), <- (cos_turns θ k).
  rewrite np_arctan2_polar by assumption. ring.
Qed.

(** ** Identical angles *)

Lemma np_mean_repeat (v : R) (n : nat) : np_mean (repeat v (S n)) = v.
Proof.
  unfold np_mean. rewrite Rsum_repeat, repeat_length.
  assert (0 < INR (S n)) by (rewrite S_INR; pose proof (pos_INR n); lra).
  field. lra.
Qed.

Lemma angular_mean_repeat θ (n : nat) :
  - PI < θ <= PI → angular_mean (repeat θ (S n)) = θ.
Proof.
  intros Hθ. unfold angular_mean.
  rewrite !map_repeat, !np_mean_repeat.
  rewrite <- (Rmult_1_l (sin θ)), <- (Rmult_1_l (cos θ)).
  apply np_arctan2_polar; [lra | exact Hθ].
Qed.

(** X1.  The mean of a distribution of identical angles is that angle:
    for [θ] in (-PI, PI], [angular_mean] of [θ] repeated returns [θ]; and
    for [d] in (-180, 180], [angular_mean_deg] of [d] repeated returns
    [d]. *)
Theorem angular_mean_identical (θ d : R) (n : nat) :
  (- PI < θ <= PI → angular_mean (repeat θ (S n)) = θ)
  ∧ (-180 < d <= 180 → angular_mean_deg (repeat d (S n)) = d).
Proof.
  split; [apply angular_mean_repeat|].
  intros Hd. pose proof PI_RGT_0 as Hpi.
  unfold angular_mean_deg. rewrite map_repeat, angular_mean_repeat.
  - apply np_rad2deg_deg2rad.
  - unfold np_deg2rad. nra.
Qed.

Lemma angular_mean_identical_witness :
  angular_mean (repeat (PI / 3) 4) = PI / 3
  ∧ angular_mean_deg (repeat (-45) 4) = -45.
Proof.
  pose proof PI_RGT_0.
  split.
  - apply (proj1 (angular_mean_identical (PI / 3) (-45) 3)). lra.
  - apply (proj2 (angular_mean_identical (PI / 3) (-45) 3)). lra.
Defined.

(** ** Two angles less than half a turn apart *)




Lemma two_angles_turn (a b : R) :
  Rabs (a - b) < PI →
  congruent (2 * PI) ((a + b) / 2)
    (np_arctan2 ((sin a + sin b) / 2) ((cos a + cos b) / 2)).
Proof.
  intros Hd. apply Rabs_def2 in Hd.
  rewrite form1, form3.
  replace (2 * cos ((a - b) / 2) * sin ((a + b) / 2) / 2)
    with (cos ((a - b) / 2) * sin ((a + b) / 2)) by field.
  replace (2 * cos ((a - b) / 2) * cos ((a + b) / 2) / 2)
    with (cos ((a - b) / 2) * cos ((a + b) / 2)) by field.
  apply np_arctan2_polar_turn. apply cos_gt_0; lra.
Qed.

(** X3.  In degrees: where the two angles of a pair are less than 180
    degrees apart, [mean_of_two_angles_deg] returns their half sum modulo
    360 (at the seam the representative can be 180 or -180). *)
Theorem mean_of_two_angles_deg_arithmetic (angle1 angle2 : list R) :
  Forall2 (fun a b => Rabs (a - b) < 180) angle1 angle2 →
  Forall2 (congruent 360)
          (zip_with (fun a b => (a + b) / 2) angle1 angle2)
          (mean_of_two_angles_deg angle1 angle2).
Proof.
  unfold mean_of_two_angles_deg, mean_of_two_angles.
  pose proof PI_RGT_0 as Hpi.
  induction 1 as [|a b l1 l2 Hd _ IH]; simpl; constructor; [|exact IH].
  apply Rabs_def2 in Hd.
  destruct (two_angles_turn (np_deg2rad a) (np_deg2rad b)) as [k Hk].
  { apply Rabs_def1; unfold np_deg2rad; nra. }
  exists k. rewrite Hk. unfold np_rad2deg, np_deg2rad. field. lra.
Qed.

Lemma mean_of_two_angles_deg_arithmetic_witness :
  Forall2 (congruent 360)
          [(170 + 190) / 2; (10 + 50) / 2]
          (mean_of_two_angles_deg [170; 10] [190; 50]).
Proof.
  apply (mean_of_two_angles_deg_arithmetic [170; 10] [190; 50]).
  repeat constructor; apply Rabs_def1; lra.
Defined.

(** X4.  [mean_of_two_angles] is the two-element case of [angular_mean]:
    on two arrays of one shape, its element [i] is the [angular_mean] of
    the distribution made of the two elements [i]; and it does not depend
    on the order of its arguments. *)
Theorem mean_of_two_angles_is_angular_mean (angles1 angles2 : list R) :
  length angles1 = length angles2 →
  mean_of_two_angles angles1 angles2
  = zip_with (fun a b => angular_mean [a; b]) angles1 angles2
  ∧ mean_of_two_angles angles1 angles2 = mean_of_two_angles angles2 angles1.
Proof.
  intros _. unfold mean_of_two_angles. split.
  - revert angles2. induction angles1 as [|a l1 IH]; intros [|b l2]; simpl;
      try reflexivity.
    rewrite IH. f_equal. unfold angular_mean, np_mean. simpl.
    f_equal; lra.
  - revert angles2. induction angles1 as [|a l1 IH]; intros [|b l2]; simpl;
      try reflexivity.
    rewrite IH. f_equal. f_equal; lra.
Qed.

Lemma mean_of_two_angles_is_angular_mean_witness :
  mean_of_two_angles [0; 1] [2; 3] = [angular_mean [0; 2]; angular_mean [1; 3]].
Proof.
  apply (mean_of_two_angles_is_angular_mean [0; 1] [2; 3]). reflexivity.
Defined.

(** ** Rotations and reflections of a distribution *)

Lemma Rsum_cos_rotate angles c :
  Rsum (map cos (map (fun θ => θ + c) angles))
  = cos c * Rsum (map cos angles) - sin c * Rsum (map sin angles).
Proof.
  induction angles as [|θ l IH]; simpl; [ring|].
  rewrite IH, cos_plus. ring.
Qed.

Lemma Rsum_sin_rotate angles c :
  Rsum (map sin (map (fun θ => θ + c) angles))
  = sin c * Rsum (map cos angles) + cos c * Rsum (map sin angles).
Proof.
  induction angles as [|θ l IH]; simpl; [ring|].
  rewrite IH, sin_plus. ring.
Qed.

Lemma angular_norm_rotate angles c :
  angular_norm (map (fun θ => θ + c) angles) = angular_norm angles.
Proof.
  unfold angular_norm, np_mean.
  rewrite Rsum_cos_rotate, Rsum_sin_rotate, !length_map.
  pose proof (sin2_cos2 c) as Hu. unfold Rsqr in Hu.
  set (C := Rsum (map cos angles)). set (S := Rsum (map sin angles)).
  set (n := INR (length angles)).
  f_equal. unfold Rdiv.
  replace (((cos c * C - sin c * S) * / n) ^ 2
           + ((sin c * C + cos c * S) * / n) ^ 2)
    with ((sin c * sin c + cos c * cos c) * ((C * / n) ^ 2 + (S * / n) ^ 2))
    by ring.
  rewrite Hu. ring.
Qed.

(** X5.  The norm of line 149 measures the dispersion and not the
    position: in exact arithmetic it does not change when all the angles of
    a non-empty distribution are turned by one angle [c], nor when whole
    turns are added to some of them. *)
Theorem angular_norm_rotation_invariant angles c :
  angles ≠ [] →
  angular_norm (map (fun θ => θ + c) angles) = angular_norm angles
  ∧ ∀ angles', same_directions angles angles' →
      angular_norm angles' = angular_norm angles.
Proof.
  intros _. split; [apply angular_norm_rotate|].
  intros angles' H. unfold angular_norm.
  now rewrite (same_directions_cos _ _ H), (same_directions_sin _ _ H).
Qed.

Lemma angular_norm_rotation_invariant_witness :
  angular_norm (map (fun θ => θ + 1) [0; 2; 3]) = angular_norm [0; 2; 3].
Proof.
  assert (H : [0; 2; 3] ≠ []) by discriminate.
  apply (proj1 (angular_norm_rotation_invariant [0; 2; 3] 1 H)).
Defined.

Lemma np_arctan2_reflect y x :
  ¬ (y = 0 ∧ x < 0) → np_arctan2 (- y) x = - np_arctan2 y x.
Proof.
  intros Hxy. pose proof PI_RGT_0 as Hpi.
  assert (Hq : - y / x = - (y / x)) by (unfold Rdiv; ring).
  unfold np_arctan2. rewrite Hq, atan_opp.
  destruct (Rlt_dec 0 x); [reflexivity|].
  destruct (Rlt_dec x 0).
  - destruct (Rle_dec 0 y), (Rle_dec 0 (- y)); lra.
  - destruct (Rlt_dec 0 y), (Rlt_dec 0 (- y)), (Rlt_dec y 0),
      (Rlt_dec (- y) 0); lra.
Qed.

(** X8.  Mirror symmetry: negating every angle of a distribution negates
    its [angular_mean], unless the mean is [PI] (the seam, which is its own
    mirror image). *)
Theorem angular_mean_reflect angles :
  angles ≠ [] → angular_mean angles ≠ PI →
  angular_mean (map Ropp angles) = - angular_mean angles.
Proof.
  intros _ Hpi. unfold angular_mean in *. rewrite !map_map.
  rewrite (map_ext (fun θ => cos (- θ)) cos) by apply cos_neg.
  rewrite (map_ext (fun θ => sin (- θ)) (fun θ => - sin θ)) by apply sin_neg.
  rewrite np_mean_map_opp.
  apply np_arctan2_reflect. intros [Hy Hx].
  apply Hpi. rewrite Hy. now apply np_arctan2_0_neg.
Qed.

Lemma angular_mean_reflect_witness :
  angular_mean (map Ropp [PI / 3; PI / 3]) = - angular_mean [PI / 3; PI / 3].
Proof.
  assert (Hm : angular_mean [PI / 3; PI / 3] = PI / 3).
  { apply (angular_mean_repeat (PI / 3) 1). pose proof PI_RGT_0. lra. }
  apply (angular_mean_reflect [PI / 3; PI / 3]); [discriminate|].
  rewrite Hm. pose proof PI_RGT_0. lra.
Defined.

(** ** Degrees *)

Lemma same_degrees_directions (angles angles' : list R) :
  Forall2 (fun d d' => ∃ k : Z, d' = d + 360 * IZR k) angles angles' →
  same_directions (map np_deg2rad angles) (map np_deg2rad angles').
Proof.
  unfold same_directions.
  induction 1 as [|d d' l l' [k ->] _ IH]; simpl; constructor; [|exact IH].
  exists k. unfold np_deg2rad. pose proof PI_RGT_0. field.
Qed.

(** X9.  The degree variants count in turns of 360: when multiples of 360
    are added to some of the values of a non-empty distribution,
    [angular_mean_deg] stays the same modulo 360, and the norm that
    [angular_std_deg] is computed from stays the same in exact
    arithmetic. *)
Theorem angular_deg_turn_invariant (angles angles' : list R) :
  angles ≠ [] →
  Forall2 (fun d d' => ∃ k : Z, d' = d + 360 * IZR k) angles angles' →
  congruent 360 (angular_mean_deg angles) (angular_mean_deg angles')
  ∧ angular_norm (map np_deg2rad angles')
    = angular_norm (map np_deg2rad angles).
Proof.
  intros _ H. apply same_degrees_directions in H.
  unfold angular_mean_deg, angular_mean, angular_norm.
  rewrite (same_directions_cos _ _ H), (same_directions_sin _ _ H).
  split; [|reflexivity]. exists 0%Z. lra.
Qed.

Lemma angular_deg_turn_invariant_witness :
  congruent 360 (angular_mean_deg [-180; 10]) (angular_mean_deg [180; -350]).
Proof.
  assert (H : [-180; 10] ≠ []) by discriminate.
  apply (proj1 (angular_deg_turn_invariant [-180; 10] [180; -350] H
                  ltac:(repeat constructor;
                        [exists 1%Z | exists (-1)%Z]; lra))).
Defined.

(** ** Intervals *)

(** X10.  For [interval_min < interval_max], [interval_mean] of a
    non-empty distribution lies in the interval, ends included, wherever
    the values themselves lie. *)
Theorem interval_mean_in_interval dist (interval_min interval_max : R) :
  dist ≠ [] → interval_min < interval_max →
  interval_min <= interval_mean dist interval_min interval_max <= interval_max.
Proof.
  intros _ Hlt. pose proof PI_RGT_0 as Hpi. unfold interval_mean.
  set (hw := (interval_max - interval_min) / 2).
  assert (Hhw : 0 < hw) by (unfold hw; lra).
  pose proof (np_arctan2_range
                (np_mean (map sin (to_angles dist hw (interval_min + hw))))
                (np_mean (map cos (to_angles dist hw (interval_min + hw)))))
    as Hr.
  fold (angular_mean (to_angles dist hw (interval_min + hw))) in Hr.
  set (m := angular_mean (to_angles dist hw (interval_min + hw))) in *.
  replace (m * hw / PI) with (m / PI * hw) by (field; lra).
  assert (Hq : -1 < m / PI <= 1).
  { split.
    - apply (Rmult_lt_reg_r PI); [lra|]. unfold Rdiv.
      rewrite Rmult_assoc, Rinv_l; lra.
    - apply (Rmult_le_reg_r PI); [lra|]. unfold Rdiv.
      rewrite Rmult_assoc, Rinv_l; lra. }
  assert (interval_max = interval_min + 2 * hw) by (unfold hw; lra).
  nra.
Qed.

Lemma interval_mean_in_interval_witness :
  0 <= interval_mean [350; 20; 40] 0 360 <= 360.
Proof.
  apply (interval_mean_in_interval [350; 20; 40] 0 360); [discriminate | lra].
Defined.



(** X13.  The mean of a distribution of values all equal to [d] is [d]
    modulo the length of the interval, for every [d] (at an end of the
    interval the representative can be either end). *)
Theorem interval_identical (d interval_min interval_max : R) (n : nat) :
  interval_min < interval_max →
  congruent (interval_max - interval_min) d
    (interval_mean (repeat d (S n)) interval_min interval_max).
Proof.
  intros Hlt. pose proof PI_RGT_0 as Hpi.
  unfold interval_mean, to_angles.
  set (hw := (interval_max - interval_min) / 2).
  assert (Hhw : 0 < hw) by (unfold hw; lra).
  rewrite map_repeat.
  set (a := (d - (interval_min + hw)) / hw * PI).
  unfold angular_mean. rewrite !map_repeat, !np_mean_repeat.
  rewrite <- (Rmult_1_l (sin a)), <- (Rmult_1_l (cos a)).
  destruct (np_arctan2_polar_turn 1 a) as [k Hk]; [lra|].
  exists k. rewrite Hk. unfold a, hw. field. lra.
Qed.

Lemma interval_identical_witness :
  congruent (360 - 0) 360 (interval_mean (repeat 360 3) 0 360).
Proof.
  apply (interval_identical 360 0 360 2). lra.
Defined.

(** X14.  The values count modulo the length of the interval: when whole
    multiples of [interval_max - interval_min] are added to some of the
    values, [interval_mean] stays the same modulo that length, and the
    norm that [interval_std] is computed from stays the same in exact
    arithmetic. *)
Theorem interval_periodic dist dist' (interval_min interval_max : R) :
  interval_min < interval_max →
  Forall2 (fun d d' => ∃ k : Z, d' = d + IZR k * (interval_max - interval_min))
          dist dist' →
  let half_width := (interval_max - interval_min) / 2 in
  let center := interval_min + half_width in
  congruent (interval_max - interval_min)
    (interval_mean dist interval_min interval_max)
    (interval_mean dist' interval_min interval_max)
  ∧ angular_norm (to_angles dist' half_width center)
    = angular_norm (to_angles dist half_width center).
Proof.
  intros Hlt H hw center. pose proof PI_RGT_0 as Hpi.
  assert (Hhw : 0 < hw) by (unfold hw; lra).
  assert (Hs : same_directions (to_angles dist hw center)
                               (to_angles dist' hw center)).
  { unfold same_directions, to_angles.
    induction H as [|d d' l l' [k ->] _ IH]; simpl; constructor; [|exact IH].
    exists k. unfold center, hw. field. lra. }
  unfold interval_mean. fold hw. fold center.
  unfold angular_mean, angular_norm.
  rewrite (same_directions_cos _ _ Hs), (same_directions_sin _ _ Hs).
  split; [|reflexivity]. exists 0%Z. lra.
Qed.

Lemma interval_periodic_witness :
  congruent (360 - 0) (interval_mean [0; 20] 0 360)
                      (interval_mean [360; -340] 0 360).
Proof.
  apply (interval_periodic [0; 20] [360; -340] 0 360); [lra|].
  repeat constructor; [exists 1%Z | exists (-1)%Z]; lra.
Defined.

(** ** Turning a distribution *)







(** ** Distributions of two values *)

Lemma angular_mean_pair (a b : R) :
  angular_mean [a; b]
  = np_arctan2 ((sin a + sin b) / 2) ((cos a + cos b) / 2).
Proof. unfold angular_mean, np_mean. simpl. f_equal; lra. Qed.

(** X22.  For two values less than half the length of the interval apart,
    [interval_mean] returns their half sum modulo the length of the
    interval: the ordinary mean, brought back into the interval. *)
Theorem interval_mean_pair (d1 d2 interval_min interval_max : R) :
  interval_min < interval_max →
  Rabs (d1 - d2) < (interval_max - interval_min) / 2 →
  congruent (interval_max - interval_min) ((d1 + d2) / 2)
    (interval_mean [d1; d2] interval_min interval_max).
Proof.
  intros Hlt Hd. pose proof PI_RGT_0 as Hpi.
  apply Rabs_def2 in Hd.
  unfold interval_mean, to_angles.
  set (hw := (interval_max - interval_min) / 2) in *.
  assert (Hhw : 0 < hw) by (unfold hw; lra).
  set (center := interval_min + hw).
  simpl map. rewrite angular_mean_pair.
  set (a1 := (d1 - center) / hw * PI). set (a2 := (d2 - center) / hw * PI).
  assert (Hdiff : a1 - a2 = (d1 - d2) / hw * PI)
    by (unfold a1, a2; field; lra).
  assert (Hq1 : -1 < (d1 - d2) / hw < 1).
  { split.
    - apply (Rmult_lt_reg_r hw); [lra|]. unfold Rdiv.
      rewrite Rmult_assoc, Rinv_l; lra.
    - apply (Rmult_lt_reg_r hw); [lra|]. unfold Rdiv.
      rewrite Rmult_assoc, Rinv_l; lra. }
  destruct (two_angles_turn a1 a2) as [k Hk].
  { rewrite Hdiff. apply Rabs_def1; nra. }
  exists k. rewrite Hk. unfold a1, a2, center, hw. field. lra.
Qed.

Lemma interval_mean_pair_witness :
  congruent (24 - 0) ((22 + 26) / 2) (interval_mean [22; 26] 0 24).
Proof.
  apply (interval_mean_pair 22 26 0 24); [lra|].
  apply Rabs_def1; lra.
Defined.

Lemma angular_norm_pair (a b : R) :
  angular_norm [a; b] = Rabs (cos ((a - b) / 2)).
Proof.
  unfold angular_norm, np_mean. simpl map. simpl Rsum. simpl length.
  replace (INR 2) with 2 by (simpl; lra).
  replace (cos a + (cos b + 0)) with (cos a + cos b) by ring.
  replace (sin a + (sin b + 0)) with (sin a + sin b) by ring.
  rewrite form1, form3.
  pose proof (sin2_cos2 ((a + b) / 2)) as Hu. unfold Rsqr in Hu.
  rewrite <- sqrt_Rsqr_abs. f_equal. unfold Rsqr.
  set (u := cos ((a - b) / 2)). set (v := (a + b) / 2) in *.
  replace ((2 * u * cos v / 2) ^ 2 + (2 * u * sin v / 2) ^ 2)
    with (u * u * (sin v * sin v + cos v * cos v)) by field.
  rewrite Hu. ring.
Qed.

(** X23.  The dispersion of two angles depends on their difference only:
    in exact arithmetic the norm of line 149 for [a] and [b] is the
    absolute value of [cos ((a - b) / 2)], and [angular_std] applies line
    150 to that norm and its rounding error. *)
Theorem angular_norm_of_pair (a b ε : R) :
  angular_norm [a; b] = Rabs (cos ((a - b) / 2))
  ∧ angular_std_fl ε [a; b]
    = angular_std_of_norm (Rabs (cos ((a - b) / 2)) + ε).
Proof.
  split; [apply angular_norm_pair|].
  unfold angular_std_fl. now rewrite angular_norm_pair.
Qed.

End AngularLaws.

(** * Further laws of [compute_directional_stats] *)

Section DirectionalLaws.
Implicit Types (avg_type : string) (nvalid_min axis : Z).

Lemma length_nvalid (f : field) :
  length (np_sum_axis0 (np_logical_not (np_ma_getmaskarray f))) = ncols f.
Proof. now rewrite nvalid_columns, length_map, length_cols. Qed.

(** X15.  Along axis 1 the index of line 60 has one element per column
    while [values] has one per row.  On a field that has columns, and not
    as many rows as columns, the call raises [IndexError]; on a field with
    as many rows as columns, and on a field without columns (the index is
    empty, and numpy accepts it), the call returns, with the counts of the
    columns in [nvalid]. *)
Theorem compute_directional_stats_axis1 (f : field) avg_type nvalid_min :
  (ncols f ≠ 0%nat → length f ≠ ncols f →
     compute_directional_stats f avg_type nvalid_min 1 = Raise IndexError)
  ∧ (length f = ncols f ∨ ncols f = 0%nat →
       ∃ values,
         compute_directional_stats f avg_type nvalid_min 1
         = Ok (values, map nvalid_of (cols masked_cell f))
         ∧ length values = length f).
Proof.
  unfold compute_directional_stats. rewrite reduce_stat_of. simpl.
  set (values := map (ma_reduce (stat_of avg_type)) f).
  set (nvalid := np_sum_axis0 (np_logical_not (np_ma_getmaskarray f))).
  assert (Hn : length nvalid = ncols f) by apply length_nvalid.
  assert (Hv : length values = length f) by apply length_map.
  assert (Hi : length (np_less nvalid nvalid_min) = ncols f)
    by (unfold np_less; now rewrite length_map).
  split.
  - intros H0 H. rewrite setitem_masked_mismatch; [reflexivity | | lia].
    intros E. rewrite E in Hi. simpl in Hi. lia.
  - intros [H|H].
    + rewrite setitem_masked_same_length by lia. simpl.
      exists (zip_with (fun c (b : bool) => if b then set_mask c else c)
                values (np_less nvalid nvalid_min)).
      split; [unfold nvalid; now rewrite nvalid_columns|].
      rewrite length_zip_with, Hv, Hi, H. apply Nat.min_id.
    + assert (E : np_less nvalid nvalid_min = []).
      { destruct (np_less nvalid nvalid_min); [reflexivity|].
        simpl in Hi. lia. }
      rewrite E. simpl. exists values.
      split; [unfold nvalid; now rewrite nvalid_columns | exact Hv].
Qed.

Lemma compute_directional_stats_axis1_witness :
  compute_directional_stats [[V 1; V 2; M 0]] "median" 1 1 = Raise IndexError
  ∧ ∃ values,
      compute_directional_stats [[]; []] "median" 1 1
      = Ok (values, map nvalid_of (cols masked_cell [[]; []]))
      ∧ length values = 2%nat.
Proof.
  split.
  - apply (proj1 (compute_directional_stats_axis1 [[V 1; V 2; M 0]] "median" 1));
      unfold ncols; simpl; lia.
  - apply (proj2 (compute_directional_stats_axis1 [[]; []] "median" 1)).
    right. reflexivity.
Defined.

Lemma compute_directional_stats_axis0_contract_witness :
  ∃ values nvalid (c : cell) (n : Z),
    compute_directional_stats [[V 4; M 9]; [V 6; M 1]] "mean" 1 0
    = Ok (values, nvalid)
    ∧ values !! 1%nat = Some c ∧ nvalid !! 1%nat = Some n
    ∧ ((n < 1)%Z → cmask c = true).
Proof.
  destruct (compute_directional_stats_axis0_contract
              [[V 4; M 9]; [V 6; M 1]] "mean" 1)
    as (values & nvalid & Hrun & _ & _ & Hcol).
  destruct (Hcol 1%nat) as (c & n & Hc & Hn & _ & _ & Hmask).
  - unfold ncols. simpl. lia.
  - exists values, nvalid, c, n. repeat split; assumption.
Defined.

Lemma valid_data_all_masked (l : list cell) :
  Forall (fun c => cmask c = true) l → valid_data l = [].
Proof.
  unfold valid_data. induction 1 as [|c l Hc _ IH]; simpl; [reflexivity|].
  now rewrite Hc.
Qed.

(** X16.  Along axis 0, a column whose elements are all masked gives a
    masked value and a count of zero, whatever [avg_type] and
    [nvalid_min] are (also for [nvalid_min <= 0]). *)
Theorem compute_directional_stats_masked_column
    (f : field) avg_type nvalid_min (j : nat) :
  (j < ncols f)%nat →
  Forall (fun c => cmask c = true) (col masked_cell f j) →
  ∃ values nvalid (c : cell),
    compute_directional_stats f avg_type nvalid_min 0 = Ok (values, nvalid)
    ∧ values !! j = Some c ∧ cmask c = true
    ∧ nvalid !! j = Some 0%Z.
Proof.
  intros Hj Hall.
  pose proof (cols_lookup masked_cell f j Hj) as Hcol.
  pose proof (valid_data_all_masked _ Hall) as Hv.
  eexists _, _, _. split; [apply compute_directional_stats_axis0|].
  split; [apply (lookup_map _ _ _ _ Hcol)|]. split.
  - unfold output_cell, ma_reduce. rewrite Hv.
    now destruct (_ <? _)%Z.
  - rewrite (lookup_map nvalid_of _ _ _ Hcol).
    now rewrite nvalid_of_valid_data, Hv.
Qed.

Lemma compute_directional_stats_masked_column_witness :
  ∃ values nvalid (c : cell),
    compute_directional_stats [[V 1; M 7]; [V 3; M 8]] "mean" 0 0
    = Ok (values, nvalid)
    ∧ values !! 1%nat = Some c ∧ cmask c = true
    ∧ nvalid !! 1%nat = Some 0%Z.
Proof.
  apply (compute_directional_stats_masked_column
           [[V 1; M 7]; [V 3; M 8]] "mean" 0 1).
  - unfold ncols. simpl. lia.
  - repeat constructor.
Defined.

Lemma zip_with_masks_more (values : list cell) (n : list Z) (k k' : Z) :
  (k ≤ k')%Z →
  length n = length values →
  Forall2 masks_more
    (zip_with (fun c (b : bool) => if b then set_mask c else c) values
              (np_less n k))
    (zip_with (fun c (b : bool) => if b then set_mask c else c) values
              (np_less n k')).
Proof.
  intros Hk. revert n.
  induction values as [|c l IH]; intros [|z n] Hlen; simpl in *;
    try discriminate; constructor.
  - unfold masks_more.
    destruct (Z.ltb_spec z k), (Z.ltb_spec z k'); simpl; try lia; tauto.
  - apply IH. lia.
Qed.

(** X17.  What [nvalid_min] changes: whether the call returns or raises,
    the counts [nvalid] and the data of [values] do not depend on it, and
    raising it only masks more elements; with [nvalid_min <= 0] the call
    returns the values of [numpy.ma.mean] or [numpy.ma.median] as they
    are. *)
Theorem compute_directional_stats_nvalid_min
    (f : field) avg_type axis (nvalid_min nvalid_min' : Z) :
  (nvalid_min ≤ nvalid_min')%Z →
  match compute_directional_stats f avg_type nvalid_min axis,
        compute_directional_stats f avg_type nvalid_min' axis with
  | Ok (values, nvalid), Ok (values', nvalid') =>
      nvalid' = nvalid ∧ Forall2 masks_more values values'
      ∧ ((nvalid_min ≤ 0)%Z →
           (if String.eqb avg_type "mean" then np_ma_mean f axis
            else np_ma_median f axis) = Ok values)
  | Raise e, Raise e' => e = e'
  | _, _ => False
  end.
Proof.
  intros Hk. unfold compute_directional_stats.
  destruct (if String.eqb avg_type "mean" then np_ma_mean f axis
            else np_ma_median f axis) as [v|e]; simpl; [|reflexivity].
  set (n := np_sum_axis0 (np_logical_not (np_ma_getmaskarray f))).
  destruct n as [|z0 n0] eqn:En.
  { simpl. split; [reflexivity|]. split; [|reflexivity].
    clear. induction v; constructor; [|assumption]. unfold masks_more. tauto. }
  rewrite <- En.
  assert (Hi : ∀ k, length (np_less n k) = length n)
    by (intros; unfold np_less; apply length_map).
  assert (Hne : ∀ k, np_less n k ≠ [])
    by (intros k E; specialize (Hi k); rewrite E, En in Hi; discriminate).
  destruct (Nat.eq_dec (length n) (length v)) as [Hlen|Hlen].
  2:{ rewrite !setitem_masked_mismatch; try apply Hne; try rewrite Hi;
        try assumption. reflexivity. }
  rewrite !setitem_masked_same_length by (rewrite Hi; assumption). simpl.
  clear En z0 n0 Hi Hne.
  split; [reflexivity|]. split.
  - now apply zip_with_masks_more.
  - intros H0. f_equal.
    assert (Hn : Forall (fun z => (0 ≤ z)%Z) n).
    { subst n. rewrite nvalid_columns. apply List.Forall_forall.
      intros z Hz. apply in_map_iff in Hz as (l & <- & _).
      apply nvalid_of_nonneg. }
    clearbody n. unfold np_less. revert n Hlen Hn.
    induction v as [|c l IH]; intros [|z n] Hlen Hn; simpl in *;
      try discriminate; [reflexivity|].
    inversion Hn; subst.
    destruct (Z.ltb_spec z nvalid_min); [lia|].
    f_equal. apply IH; [lia | assumption].
Qed.

Lemma compute_directional_stats_nvalid_min_witness :
  match compute_directional_stats [[V 1; M 7]; [V 3; V 8]] "mean" 1 0,
        compute_directional_stats [[V 1; M 7]; [V 3; V 8]] "mean" 2 0 with
  | Ok (values, nvalid), Ok (values', nvalid') =>
      nvalid' = nvalid ∧ Forall2 masks_more values values'
      ∧ ((1 ≤ 0)%Z → np_ma_mean [[V 1; M 7]; [V 3; V 8]] 0 = Ok values)
  | Raise e, Raise e' => e = e'
  | _, _ => False
  end.
Proof.
  apply (compute_directional_stats_nvalid_min
           [[V 1; M 7]; [V 3; V 8]] "mean" 0 1 2).
  lia.
Defined.

(** ** The statistics stay within the data *)

Section Bounds.
Local Open Scope Q_scope.

Lemma inject_Z_succ (n : nat) :
  inject_Z (Z.of_nat (S n)) == inject_Z (Z.of_nat n) + 1.
Proof.
  rewrite Nat2Z.inj_succ. unfold Z.succ. now rewrite inject_Z_plus.
Qed.

Lemma Qsum_within (lo hi : Q) (l : list Q) :
  within lo hi l →
  lo * inject_Z (Z.of_nat (length l)) <= Qsum l
  ∧ Qsum l <= hi * inject_Z (Z.of_nat (length l)).
Proof.
  induction 1 as [|q l [Hlo Hhi] _ [IHlo IHhi]].
  - change (lo * 0 <= 0 ∧ 0 <= hi * 0). split; lra.
  - change (length (q :: l)) with (S (length l)).
    change (Qsum (q :: l)) with (q + Qsum l).
    rewrite inject_Z_succ. split; lra.
Qed.

Lemma plain_mean_within (lo hi : Q) (l : list Q) :
  l ≠ [] → within lo hi l → lo <= plain_mean l <= hi.
Proof.
  intros Hne Hw. destruct (Qsum_within lo hi l Hw) as [Hlo Hhi].
  unfold plain_mean. rewrite Qred_correct.
  assert (Hn : 0 < inject_Z (Z.of_nat (length l))).
  { destruct l as [|q l]; [congruence|].
    change 0 with (inject_Z 0). rewrite <- Zlt_Qlt. simpl length. lia. }
  split.
  - now apply Qle_shift_div_l.
  - now apply Qle_shift_div_r.
Qed.

Lemma insert_sorted_within (lo hi x : Q) (l : list Q) :
  lo <= x <= hi → within lo hi l → within lo hi (insert_sorted x l).
Proof.
  intros Hx. induction 1 as [|y l Hy Hl IH]; simpl.
  - repeat constructor; apply Hx.
  - destruct (Qle_bool x y); repeat constructor; try apply Hx; try apply Hy;
      assumption.
Qed.

Lemma sort_within (lo hi : Q) (l : list Q) :
  within lo hi l → within lo hi (sort l).
Proof.
  induction 1 as [|y l Hy Hl IH]; simpl; [constructor|].
  now apply insert_sorted_within.
Qed.

Lemma length_insert_sorted (x : Q) (l : list Q) :
  length (insert_sorted x l) = S (length l).
Proof.
  induction l as [|y l IH]; simpl; [reflexivity|].
  destruct (Qle_bool x y); simpl; [reflexivity | now rewrite IH].
Qed.

Lemma length_sort (l : list Q) : length (sort l) = length l.
Proof.
  induction l as [|y l IH]; simpl; [reflexivity|].
  now rewrite length_insert_sorted, IH.
Qed.

Lemma plain_median_within (lo hi : Q) (l : list Q) :
  l ≠ [] → within lo hi l → lo <= plain_median l <= hi.
Proof.
  intros Hne Hw. apply sort_within in Hw.
  assert (Hlen : (length (sort l) ≠ 0)%nat).
  { rewrite length_sort. destruct l; [congruence | discriminate]. }
  unfold plain_median. set (s := sort l) in *. clearbody s.
  pose proof (proj1 (List.Forall_nth _ s) Hw) as Hnth.
  assert (Hh : (length s / 2 < length s)%nat)
    by (apply Nat.div_lt; lia).
  destruct (Nat.odd (length s)) eqn:Hodd; rewrite Qred_correct.
  - apply Hnth, Hh.
  - assert (H2 : (2 ≤ length s)%nat).
    { destruct (length s) as [|[|k]]; [lia | discriminate | lia]. }
    assert (H1 : (length s / 2 - 1 < length s)%nat) by lia.
    pose proof (Hnth _ 0 H1) as [Ha1 Ha2].
    pose proof (Hnth _ 0 Hh) as [Hb1 Hb2].
    split.
    + apply Qle_shift_div_l; lra.
    + apply Qle_shift_div_r; lra.
Qed.

Lemma valid_data_within (lo hi : Q) (l : list cell) :
  Forall (fun c => cmask c = false → lo <= cdata c <= hi) l →
  within lo hi (valid_data l).
Proof.
  unfold within, valid_data.
  induction 1 as [|c l Hc _ IH]; simpl; [constructor|].
  destruct (cmask c); simpl; [exact IH|].
  constructor; [now apply Hc | exact IH].
Qed.

(** X18.  Along axis 0, at a column that has at least [nvalid_min] valid
    entries and at least one, the returned mean or median is unmasked and
    lies between any two bounds that enclose the valid entries of the
    column: it is not pulled outside the data, and the data under the mask
    do not enter it. *)
Theorem compute_directional_stats_within
    (f : field) avg_type nvalid_min (j : nat) (lo hi : Q) :
  (j < ncols f)%nat →
  let column := col masked_cell f j in
  (nvalid_min ≤ nvalid_of column)%Z →
  (1 ≤ nvalid_of column)%Z →
  Forall (fun c => cmask c = false → lo <= cdata c <= hi) column →
  ∃ values nvalid (v : Q),
    compute_directional_stats f avg_type nvalid_min 0 = Ok (values, nvalid)
    ∧ values !! j = Some (V v)
    ∧ lo <= v <= hi.
Proof.
  intros Hj column Hmin Hone Hall.
  pose proof (cols_lookup masked_cell f j Hj) as Hcol. fold column in Hcol.
  apply valid_data_within in Hall.
  assert (Hne : valid_data column ≠ []).
  { rewrite nvalid_of_valid_data in Hone.
    destruct (valid_data column); [simpl in Hone; lia | discriminate]. }
  exists (map (output_cell avg_type nvalid_min) (cols masked_cell f)),
         (map nvalid_of (cols masked_cell f)),
         (stat_of avg_type (valid_data column)).
  split; [apply compute_directional_stats_axis0|]. split.
  - rewrite (lookup_map _ _ _ _ Hcol). f_equal. unfold output_cell.
    destruct (Z.ltb_spec (nvalid_of column) nvalid_min); [lia|].
    unfold ma_reduce. now destruct (valid_data column).
  - unfold stat_of. destruct (String.eqb avg_type "mean").
    + now apply plain_mean_within.
    + now apply plain_median_within.
Qed.

Lemma compute_directional_stats_within_witness :
  ∃ values nvalid (v : Q),
    compute_directional_stats [[V 4; M 900]; [V 6; V 1]; [V 5; V 2]] "median" 2 0
    = Ok (values, nvalid)
    ∧ values !! 0%nat = Some (V v)
    ∧ 4 <= v <= 6.
Proof.
  apply (compute_directional_stats_within
           [[V 4; M 900]; [V 6; V 1]; [V 5; V 2]] "median" 2 0 4 6).
  - unfold ncols. simpl. lia.
  - vm_compute. discriminate.
  - vm_compute. discriminate.
  - apply List.Forall_forall. intros c Hc _.
    destruct Hc as [<-|[<-|[<-|[]]]]; split; discriminate.
Defined.

End Bounds.

(** ** The order of the rows does not matter *)

Section RowOrder.
Local Open Scope Q_scope.

Lemma Qsum_Permutation (l l' : list Q) :
  Permutation l l' → Qsum l == Qsum l'.
Proof.
  induction 1 as [|x l l' _ IH|x y l|l l' l'' _ IH1 _ IH2]; simpl.
  - reflexivity.
  - now rewrite IH.
  - ring.
  - now rewrite IH1.
Qed.

Lemma plain_mean_Permutation (l l' : list Q) :
  Permutation l l' → plain_mean l = plain_mean l'.
Proof.
  intros H. unfold plain_mean. apply Qred_complete.
  now rewrite (Qsum_Permutation _ _ H), (Permutation_length H).
Qed.

Lemma Qle_bool_Qred (x y : Q) : Qle_bool (Qred x) (Qred y) = Qle_bool x y.
Proof. now rewrite !Qred_correct. Qed.

Lemma insert_sorted_Qred (x : Q) (l : list Q) :
  insert_sorted (Qred x) (map Qred l) = map Qred (insert_sorted x l).
Proof.
  induction l as [|y l IH]; simpl; [reflexivity|].
  rewrite Qle_bool_Qred. destruct (Qle_bool x y); simpl; [reflexivity|].
  now rewrite IH.
Qed.

Lemma sort_Qred (l : list Q) : sort (map Qred l) = map Qred (sort l).
Proof.
  induction l as [|y l IH]; simpl; [reflexivity|].
  now rewrite IH, insert_sorted_Qred.
Qed.

Lemma Qred_idem (x : Q) : Qred (Qred x) = Qred x.
Proof. apply Qred_complete, Qred_correct. Qed.

Lemma plain_median_Qred (l : list Q) :
  plain_median (map Qred l) = plain_median l.
Proof.
  unfold plain_median. rewrite sort_Qred, length_map.
  change 0 with (Qred 0). rewrite !map_nth. change (Qred 0) with 0.
  destruct (Nat.odd (length (sort l))).
  - apply Qred_idem.
  - apply Qred_complete. now rewrite !Qred_correct.
Qed.

Lemma insert_sorted_Forall (P : Q → Prop) (x : Q) (l : list Q) :
  P x → Forall P l → Forall P (insert_sorted x l).
Proof.
  intros Hx. induction 1 as [|y l Hy Hl IH]; simpl.
  - now repeat constructor.
  - destruct (Qle_bool x y); repeat constructor; assumption.
Qed.

Lemma insert_sorted_sorted (x : Q) (l : list Q) :
  StronglySorted Qle l → StronglySorted Qle (insert_sorted x l).
Proof.
  induction 1 as [|y l Hs IH Hall]; simpl.
  - repeat constructor.
  - destruct (Qle_bool x y) eqn:E.
    + apply Qle_bool_iff in E. constructor; [now constructor|].
      constructor; [exact E|].
      eapply Forall_impl; [exact Hall|]. intros z Hz. simpl in Hz.
      now apply Qle_trans with y.
    + assert (Hyx : y <= x).
      { destruct (Qlt_le_dec y x) as [H|H]; [now apply Qlt_le_weak|].
        apply Qle_bool_iff in H. congruence. }
      constructor; [exact IH|].
      now apply insert_sorted_Forall.
Qed.

Lemma sort_sorted (l : list Q) : StronglySorted Qle (sort l).
Proof.
  induction l as [|y l IH]; simpl; [constructor|].
  now apply insert_sorted_sorted.
Qed.

Lemma insert_sorted_Permutation (x : Q) (l : list Q) :
  Permutation (insert_sorted x l) (x :: l).
Proof.
  induction l as [|y l IH]; simpl; [reflexivity|].
  destruct (Qle_bool x y); [reflexivity|].
  rewrite IH. apply perm_swap.
Qed.

Lemma sort_Permutation (l : list Q) : Permutation (sort l) l.
Proof.
  induction l as [|y l IH]; simpl; [reflexivity|].
  now rewrite insert_sorted_Permutation, IH.
Qed.

(** Two ascending lists of rationals in lowest terms with the same
    elements are the same list. *)
Lemma sorted_unique (l1 l2 : list Q) :
  Forall (fun q => Qred q = q) l1 → Forall (fun q => Qred q = q) l2 →
  StronglySorted Qle l1 → StronglySorted Qle l2 →
  Permutation l1 l2 → l1 = l2.
Proof.
  revert l2. induction l1 as [|a t1 IH]; intros l2 Hc1 Hc2 Hs1 Hs2 Hp.
  - now apply Permutation_nil in Hp.
  - destruct l2 as [|b t2].
    { symmetry in Hp. now apply Permutation_nil in Hp. }
    inversion Hc1 as [|? ? Ha Hc1']; inversion Hc2 as [|? ? Hb Hc2']; subst.
    inversion Hs1 as [|? ? Hs1' Hall1]; inversion Hs2 as [|? ? Hs2' Hall2];
      subst.
    assert (Hab : a <= b).
    { assert (Hin : In b (a :: t1))
        by (eapply Permutation_in; [symmetry; exact Hp | now left]).
      destruct Hin as [->|Hin]; [apply Qle_refl|].
      now apply (proj1 (List.Forall_forall _ _) Hall1). }
    assert (Hba : b <= a).
    { assert (Hin : In a (b :: t2))
        by (eapply Permutation_in; [exact Hp | now left]).
      destruct Hin as [->|Hin]; [apply Qle_refl|].
      now apply (proj1 (List.Forall_forall _ _) Hall2). }
    assert (E : a = b).
    { rewrite <- Ha, <- Hb. apply Qred_complete. now apply Qle_antisym. }
    subst b. f_equal. apply IH; try assumption.
    now apply Permutation_cons_inv in Hp.
Qed.

Lemma plain_median_Permutation (l l' : list Q) :
  Permutation l l' → plain_median l = plain_median l'.
Proof.
  intros H.
  rewrite <- (plain_median_Qred l), <- (plain_median_Qred l').
  assert (Hc : ∀ k : list Q, Forall (fun q => Qred q = q) (sort (map Qred k))).
  { intros k. rewrite sort_Qred. apply List.Forall_forall.
    intros q Hq. apply in_map_iff in Hq as (x & <- & _). apply Qred_idem. }
  assert (E : sort (map Qred l) = sort (map Qred l')).
  { apply sorted_unique; try apply Hc; try apply sort_sorted.
    rewrite !sort_Permutation. now apply Permutation_map. }
  unfold plain_median. now rewrite E.
Qed.

Lemma valid_data_Permutation (l l' : list cell) :
  Permutation l l' → Permutation (valid_data l) (valid_data l').
Proof.
  unfold valid_data.
  induction 1 as [|x l l' _ IH|x y l|l l' l'' _ IH1 _ IH2]; simpl.
  - reflexivity.
  - destruct (cmask x); simpl; [exact IH | now constructor].
  - destruct (cmask x), (cmask y); simpl; try reflexivity. apply perm_swap.
  - now rewrite IH1.
Qed.

Lemma output_cell_Permutation avg_type nvalid_min (l l' : list cell) :
  Permutation l l' →
  output_cell avg_type nvalid_min l' = output_cell avg_type nvalid_min l
  ∧ nvalid_of l' = nvalid_of l.
Proof.
  intros H. apply valid_data_Permutation in H.
  assert (Hn : nvalid_of l' = nvalid_of l).
  { rewrite !nvalid_of_valid_data. now rewrite (Permutation_length H). }
  split; [|exact Hn].
  unfold output_cell, ma_reduce. rewrite Hn.
  assert (Hs : stat_of avg_type (valid_data l')
               = stat_of avg_type (valid_data l)).
  { unfold stat_of. destruct (String.eqb avg_type "mean");
      symmetry; [now apply plain_mean_Permutation
                | now apply plain_median_Permutation]. }
  destruct (valid_data l) as [|q v].
  - apply Permutation_nil in H. now rewrite H.
  - destruct (valid_data l') as [|q' v'].
    + symmetry in H. now apply Permutation_nil in H.
    + now rewrite Hs.
Qed.

Lemma ncols_Permutation {A} (m m' : list (list A)) :
  rectangular m → Permutation m m' → ncols m' = ncols m.
Proof.
  intros Hr Hp. destruct m' as [|r m''].
  - symmetry in Hp. apply Permutation_nil in Hp. now subst.
  - unfold ncols at 1. simpl.
    apply (proj1 (List.Forall_forall _ _) Hr).
    eapply Permutation_in; [symmetry; exact Hp | now left].
Qed.

(** X19.  Along axis 0 the rows of the field can be given in any order: a
    field with the same rows in another order gives the same values, the
    same masks and the same counts. *)
Theorem compute_directional_stats_row_order
    (f f' : field) avg_type nvalid_min :
  rectangular f → Permutation f f' →
  compute_directional_stats f' avg_type nvalid_min 0
  = compute_directional_stats f avg_type nvalid_min 0.
Proof.
  intros Hr Hp. rewrite !compute_directional_stats_axis0.
  unfold cols. rewrite (ncols_Permutation _ _ Hr Hp), !map_map.
  assert (Hcol : ∀ j, Permutation (col masked_cell f j) (col masked_cell f' j))
    by (intros j; unfold col; now apply Permutation_map).
  f_equal. f_equal; apply map_ext; intros j;
    now apply output_cell_Permutation.
Qed.

Lemma compute_directional_stats_row_order_witness :
  compute_directional_stats [[V 3; V 8]; [V 1; M 7]; [V 9; V 2]] "median" 1 0
  = compute_directional_stats [[V 1; M 7]; [V 3; V 8]; [V 9; V 2]] "median" 1 0.
Proof.
  apply (compute_directional_stats_row_order
           [[V 1; M 7]; [V 3; V 8]; [V 9; V 2]]
           [[V 3; V 8]; [V 1; M 7]; [V 9; V 2]] "median" 1).
  - repeat constructor.
  - apply perm_swap.
Defined.

End RowOrder.

End DirectionalLaws.
